(** * Zion: HotStuff event handling and header-sync parameter codecs

    A shallow embedding of
    - [consensus/hotstuff/event.go] and [consensus/hotstuff/basic/core/handler.go]
      (the event loop of the basic HotStuff core, with the package's error
      values), and
    - [contracts/native/header_sync/common/param.go] (the three parameter
      structs and their zero-copy codecs),
    followed by the properties proved about them. *)

From Stdlib Require Import ZArith Lia Bool String List.
From Stdlib Require Import Strings.Byte.
Import ListNotations.
Local Open Scope Z_scope.

(* ================================================================== *)
(** * Errors of package core *)
(* ================================================================== *)

(** The package-level error values.  Go compares them by identity
    ([err == errFutureMessage]), so every [errors.New] of the package is a
    constructor of its own; [errOther] stands for an error value created
    anywhere else (a decoder, a signature check). *)
Inductive error : Type :=
| errInconsistentVote
| errInconsistentPrepareQC
| errInvalidDigest
| errNotFromProposer
| errNotToProposer
| errFutureMessage
| errOldMessage
| errOldVote
| errInvalidMessage
| errFailedDecodeNewView
| errFailedDecodePrepare
| errFailedDecodePrepareVote
| errFailedDecodePreCommit
| errFailedDecodePreCommitVote
| errFailedDecodeCommit
| errFailedDecodeDecide
| errFailedDecodeCommitVote
| errInvalidSigner
| errState
| errProposal
| errMsgTypeInvalid
| errNoRequest
| errInvalidProposal
| errInvalidQCParticipant
| errVerifyUnsealedProposal
| errExtend
| errVerifyQC
| errSafeNode
| errAddNewViews
| errAddPrepareVote
| errAddPreCommitVote
| errAddCommitVote
| errOther (text : string).

(** The text each error was created with. *)
Definition Error (e : error) : string :=
  match e with
  | errInconsistentVote => "inconsistent vote"
  | errInconsistentPrepareQC => "inconsistent prepare qc"
  | errInvalidDigest => "invalid digest"
  | errNotFromProposer => "message does not come from proposer"
  | errNotToProposer => "message does not send to proposer"
  | errFutureMessage => "future message"
  | errOldMessage => "old message"
  | errOldVote => "old vote"
  | errInvalidMessage => "invalid message"
  | errFailedDecodeNewView => "failed to decode NEWVIEW"
  | errFailedDecodePrepare => "failed to decode PREPARE"
  | errFailedDecodePrepareVote => "failed to decode PREPARE_VOTE"
  | errFailedDecodePreCommit => "failed to decode PRECOMMIT"
  | errFailedDecodePreCommitVote => "faild to decode PRECOMMIT_VOTE"
  | errFailedDecodeCommit => "failed to decode COMMIT"
  | errFailedDecodeDecide => "failed to decode DECIDE"
  | errFailedDecodeCommitVote => "failed to decode COMMIT_VOTE"
  | errInvalidSigner => "message not signed by the sender"
  | errState => "error state"
  | errProposal => "proposal hash is not equal to qc digest"
  | errMsgTypeInvalid => "message type invalid"
  | errNoRequest => "no valid request"
  | errInvalidProposal => "invalid proposal"
  | errInvalidQCParticipant => "invalid qc participant"
  | errVerifyUnsealedProposal => "verify unsealed proposal failed"
  | errExtend => "proposal extend relationship error"
  | errVerifyQC => "verify qc error"
  | errSafeNode => "safeNode checking failed"
  | errAddNewViews => "add new view error"
  | errAddPrepareVote => "add prepare vote error"
  | errAddPreCommitVote => "add pre commit vote error"
  | errAddCommitVote => "add commit vote error"
  | errOther text => text
  end%string.

(** A Go [error] value: [None] is [nil]. *)
Definition goerror : Type := option error.

(** [err == errFutureMessage]. *)
Definition isFutureMessage (err : goerror) : bool :=
  match err with
  | Some errFutureMessage => true
  | _ => false
  end.

(** [common.Address] is [[20]byte]. *)
Definition address : Type := list byte.
Definition AddressLength : Z := 20.

(* ================================================================== *)
(** * The core and its event loop (handler.go) *)
(* ================================================================== *)

Section Core.

(** Opaque collaborators' data: a proposal, a validator, an event-mux
    subscription and the backend that owns the mux. *)
Context {Proposal Validator Subscription Backend : Type}.

(** [hotstuff.Request]. *)
Record Request : Type := { ReqProposal : Proposal }.

(** Modelled from the spec: the [message] struct is declared outside the
    files at hand.  [Code] and [Address] are the fields handler.go reads;
    the round, the payload and the signature are the rest of the "wire
    envelope = {Code, Round, payload, signer signature}". *)
Record message : Type := {
  Code : Z;
  Address : address;
  MsgRound : Z;
  Msg : list byte;
  Signature : list byte
}.

(** The events of event.go, with the two events internal to the core
    that handler.go names ([backlogEvent], [timeoutEvent]). *)
Inductive event : Type :=
| RequestEvent (proposal : Proposal)
| MessageEvent (Payload : list byte)
| FinalCommittedEvent
| backlogEvent (msg : message) (src : Validator)
| timeoutEvent.

(** The type of an event, as [Subscribe] takes it. *)
Inductive eventType : Type :=
| TRequestEvent | TMessageEvent | TFinalCommittedEvent | TbacklogEvent | TtimeoutEvent.

(** The [ValidatorSet] interface value held by the core: of its methods,
    handler.go calls [GetByAddress], which returns an index and a validator
    or [nil]. *)
Record ValidatorSet : Type := {
  GetByAddress : address -> Z * option Validator
}.

(** Modelled from the spec: the phases of a round ("one of {NewView,
    Prepare, PreCommit, Commit, Decide}"). *)
Inductive Phase : Type := NewView | Prepare | PreCommit | Commit | Decide.

(** Modelled from the spec: [roundState] is declared outside the files at
    hand; handler.go reads its round through [Round()], and the spec gives
    the core one active phase per round. *)
Record roundState : Type := {
  round : Z;
  state : Phase
}.

(** [c.current.Round()]; a [*big.Int], unbounded. *)
Definition Round (rs : roundState) : Z := round rs.

(** Modelled from the spec: the [core] struct is declared outside the
    files at hand.  [current], [valSet], [events], [timeoutSub],
    [finalCommittedSub] and [backend] are the fields handler.go touches
    (the validate function and the logger are reached through the methods
    below); the three subscription fields hold a subscription, as they do
    once [subscribeEvents] has run.  From the spec come [backlogs] (the
    Backlog's entries, in insertion order), [pendingRequest] (the recorded
    proposal request) and [timerActive] (the one timer of the Timeout
    Manager). *)
Record core : Type := {
  current : roundState;
  valSet : ValidatorSet;
  events : Subscription;
  timeoutSub : Subscription;
  finalCommittedSub : Subscription;
  backend : Backend;
  backlogs : list (message * Validator);
  pendingRequest : option Request;
  timerActive : bool
}.

Definition set_current (rs : roundState) (c : core) : core :=
  {| current := rs; valSet := valSet c; events := events c;
     timeoutSub := timeoutSub c; finalCommittedSub := finalCommittedSub c;
     backend := backend c; backlogs := backlogs c;
     pendingRequest := pendingRequest c; timerActive := timerActive c |}.

Definition set_events (s : Subscription) (c : core) : core :=
  {| current := current c; valSet := valSet c; events := s;
     timeoutSub := timeoutSub c; finalCommittedSub := finalCommittedSub c;
     backend := backend c; backlogs := backlogs c;
     pendingRequest := pendingRequest c; timerActive := timerActive c |}.

Definition set_timeoutSub (s : Subscription) (c : core) : core :=
  {| current := current c; valSet := valSet c; events := events c;
     timeoutSub := s; finalCommittedSub := finalCommittedSub c;
     backend := backend c; backlogs := backlogs c;
     pendingRequest := pendingRequest c; timerActive := timerActive c |}.

Definition set_finalCommittedSub (s : Subscription) (c : core) : core :=
  {| current := current c; valSet := valSet c; events := events c;
     timeoutSub := timeoutSub c; finalCommittedSub := s;
     backend := backend c; backlogs := backlogs c;
     pendingRequest := pendingRequest c; timerActive := timerActive c |}.

Definition set_backend (b : Backend) (c : core) : core :=
  {| current := current c; valSet := valSet c; events := events c;
     timeoutSub := timeoutSub c; finalCommittedSub := finalCommittedSub c;
     backend := b; backlogs := backlogs c;
     pendingRequest := pendingRequest c; timerActive := timerActive c |}.

Definition set_backlogs (l : list (message * Validator)) (c : core) : core :=
  {| current := current c; valSet := valSet c; events := events c;
     timeoutSub := timeoutSub c; finalCommittedSub := finalCommittedSub c;
     backend := backend c; backlogs := l;
     pendingRequest := pendingRequest c; timerActive := timerActive c |}.

Definition set_pendingRequest (r : option Request) (c : core) : core :=
  {| current := current c; valSet := valSet c; events := events c;
     timeoutSub := timeoutSub c; finalCommittedSub := finalCommittedSub c;
     backend := backend c; backlogs := backlogs c;
     pendingRequest := r; timerActive := timerActive c |}.

Definition set_timerActive (b : bool) (c : core) : core :=
  {| current := current c; valSet := valSet c; events := events c;
     timeoutSub := timeoutSub c; finalCommittedSub := finalCommittedSub c;
     backend := backend c; backlogs := backlogs c;
     pendingRequest := pendingRequest c; timerActive := b |}.

(** ** What the code of handler.go calls *)

(** The seven per-code handlers. *)
Inductive handlerName : Type :=
| HNewView | HPrepare | HPrepareVote | HPreCommit | HPreCommitVote | HCommit | HCommitVote.

Inductive logLevel : Type := LvlTrace | LvlError.

(** One entry per call that handler.go makes to a method that acts on
    the core, on the timer, on the event mux or on the log, in program
    order: the observable behaviour of its functions.  Decoding a payload
    and looking an address up only read, and leave no entry. *)
Inductive Call : Type :=
| call_startNewRound (r : Z)
| call_handleRequest (req : Request)
| call_handler (h : handlerName) (msg : message) (src : Validator)
| call_storeBacklog (msg : message) (src : Validator)
| call_handleFinalCommitted
| call_stopTimer
| call_Subscribe (types : list eventType) (sub : Subscription)
| call_Unsubscribe (sub : Subscription)
| call_log (lvl : logLevel) (text : string).

(** The functions and constants that handler.go uses and that are defined
    in other files of the package or behind the backend interface.  Each
    method of the core may read and change the core; the event mux belongs
    to the backend. *)
Class CoreMethods : Type := {
  MsgTypeNewView : Z;
  MsgTypePrepare : Z;
  MsgTypePrepareVote : Z;
  MsgTypePreCommit : Z;
  MsgTypePreCommitVote : Z;
  MsgTypeCommit : Z;
  MsgTypeCommitVote : Z;
  (** [c.startNewRound(round)] *)
  startNewRound_impl : Z -> core -> core;
  (** [c.handleRequest(req)] *)
  handleRequest_impl : Request -> core -> goerror * core;
  (** [msg.FromPayload(payload, c.validateFn)] on a fresh message: the
      decoded message, or the error.  The validate function is a method
      value of the core, so the core is what it may read. *)
  FromPayload_impl : list byte -> core -> message + error;
  (** [c.handleNewView(msg, src)] and its six siblings *)
  handler_impl : handlerName -> message -> Validator -> core -> goerror * core;
  (** [c.storeBacklog(msg, src)] *)
  storeBacklog_impl : message -> Validator -> core -> core;
  (** [c.handleFinalCommitted()] *)
  handleFinalCommitted_impl : core -> core;
  (** [c.stopTimer()] *)
  stopTimer_impl : core -> core;
  (** [c.backend.EventMux().Subscribe(types...)] *)
  Subscribe_impl : list eventType -> Backend -> Subscription * Backend;
  (** [sub.Unsubscribe()] *)
  Unsubscribe_impl : Subscription -> Backend -> Backend
}.

(** ** A state monad over the core that records the calls *)

Definition M (A : Type) : Type := core -> A * core * list Call.

Definition ret {A} (a : A) : M A := fun c => (a, c, []).

Definition bind {A B} (m : M A) (f : A -> M B) : M B :=
  fun c =>
    let '(a, c1, t1) := m c in
    let '(b, c2, t2) := f a c1 in
    (b, c2, t1 ++ t2).

Declare Scope core_scope.
Local Notation "x <- m ;; k" := (bind m (fun x => k))
  (at level 61, m at next level, right associativity) : core_scope.
Local Notation "m ;;; k" := (bind m (fun _ => k))
  (at level 61, right associativity) : core_scope.

Definition get : M core := fun c => (c, c, []).
Definition modify (f : core -> core) : M unit := fun c => (tt, f c, []).
Definition emit (x : Call) : M unit := fun c => (tt, c, [x]).

(** Projections of a run. *)
Definition result {A} (r : A * core * list Call) : A := fst (fst r).
Definition final {A} (r : A * core * list Call) : core := snd (fst r).
Definition calls {A} (r : A * core * list Call) : list Call := snd r.

(** Helpers naming the calls: each records the call, then runs the method. *)

Definition logTrace (text : string) : M unit := emit (call_log LvlTrace text).
Definition logError (text : string) : M unit := emit (call_log LvlError text).

Section Methods.

Context {CM : CoreMethods}.

Definition startNewRound (r : Z) : M unit :=
  fun c => (tt, startNewRound_impl r c, [call_startNewRound r]).

Definition handleRequest (req : Request) : M goerror :=
  fun c => let '(err, c') := handleRequest_impl req c in (err, c', [call_handleRequest req]).

Definition FromPayload (payload : list byte) : M (message + error) :=
  fun c => (FromPayload_impl payload c, c, []).

Definition callHandler (h : handlerName) (msg : message) (src : Validator) : M goerror :=
  fun c => let '(err, c') := handler_impl h msg src c in (err, c', [call_handler h msg src]).

Definition handleNewView := callHandler HNewView.
Definition handlePrepare := callHandler HPrepare.
Definition handlePrepareVote := callHandler HPrepareVote.
Definition handlePreCommit := callHandler HPreCommit.
Definition handlePreCommitVote := callHandler HPreCommitVote.
Definition handleCommit := callHandler HCommit.
Definition handleCommitVote := callHandler HCommitVote.

Definition storeBacklog (msg : message) (src : Validator) : M unit :=
  fun c => (tt, storeBacklog_impl msg src c, [call_storeBacklog msg src]).

Definition handleFinalCommitted : M unit :=
  fun c => (tt, handleFinalCommitted_impl c, [call_handleFinalCommitted]).

Definition stopTimer : M unit :=
  fun c => (tt, stopTimer_impl c, [call_stopTimer]).

Definition Subscribe (types : list eventType) : M Subscription :=
  fun c =>
    let '(sub, b) := Subscribe_impl types (backend c) in
    (sub, set_backend b c, [call_Subscribe types sub]).

Definition Unsubscribe (sub : Subscription) : M unit :=
  fun c => (tt, set_backend (Unsubscribe_impl sub (backend c)) c, [call_Unsubscribe sub]).

(** ** handler.go *)

Local Open Scope core_scope.

(** [subscribeEvents]: three subscriptions on the backend's event mux, kept
    in [c.events], [c.timeoutSub] and [c.finalCommittedSub]. *)
Definition subscribeEvents : M unit :=
  s1 <- Subscribe [TRequestEvent; TMessageEvent; TbacklogEvent] ;;
  modify (set_events s1) ;;;
  s2 <- Subscribe [TtimeoutEvent] ;;
  modify (set_timeoutSub s2) ;;;
  s3 <- Subscribe [TFinalCommittedEvent] ;;
  modify (set_finalCommittedSub s3).

(** [unsubscribeEvents]. *)
Definition unsubscribeEvents : M unit :=
  c <- get ;; Unsubscribe (events c) ;;;
  c <- get ;; Unsubscribe (timeoutSub c) ;;;
  c <- get ;; Unsubscribe (finalCommittedSub c).

(** [Stop]. *)
Definition Stop : M goerror :=
  stopTimer ;;;
  unsubscribeEvents ;;;
  ret None.

(** [handleCheckedMsg]: the closure [testBacklog], then the switch on
    [msg.Code], whose cases are tried from the top. *)
Definition testBacklog (msg : message) (src : Validator) (err : goerror) : M goerror :=
  (if isFutureMessage err then storeBacklog msg src else ret tt) ;;;
  ret err.

Definition handleCheckedMsg (msg : message) (src : Validator) : M goerror :=
  if Code msg =? MsgTypeNewView then
    err <- handleNewView msg src ;; testBacklog msg src err
  else if Code msg =? MsgTypePrepare then
    err <- handlePrepare msg src ;; testBacklog msg src err
  else if Code msg =? MsgTypePrepareVote then
    err <- handlePrepareVote msg src ;; testBacklog msg src err
  else if Code msg =? MsgTypePreCommit then
    err <- handlePreCommit msg src ;; testBacklog msg src err
  else if Code msg =? MsgTypePreCommitVote then
    err <- handlePreCommitVote msg src ;; testBacklog msg src err
  else if Code msg =? MsgTypeCommit then
    err <- handleCommit msg src ;; testBacklog msg src err
  else if Code msg =? MsgTypeCommitVote then
    err <- handleCommitVote msg src ;; testBacklog msg src err
  else
    logError "msg type invalid" ;;;
    ret (Some errInvalidMessage).

(** [handleMsg]. *)
Definition handleMsg (payload : list byte) : M goerror :=
  decoded <- FromPayload payload ;;
  match decoded with
  | inr err =>
      logError "Failed to decode message from payload" ;;;
      ret (Some err)
  | inl msg =>
      c <- get ;;
      match snd (GetByAddress (valSet c) (Address msg)) with
      | None =>
          logError "Invalid address in message" ;;;
          ret (Some errInvalidSigner)
      | Some src => handleCheckedMsg msg src
      end
  end.

(** [handleTimeoutMsg]. *)
Definition handleTimeoutMsg : M unit :=
  logTrace "handleTimeout" ;;;
  c <- get ;;
  let round := Round (current c) + 1 in
  startNewRound round.

(** One outcome of the [select] of [handleEvents]: which channel delivered,
    and what.  A closed channel delivers [ok = false]. *)
Inductive selected : Type :=
| fromEvents (ev : option event)
| fromTimeoutSub (ok : bool)
| fromFinalCommittedSub (ok : bool).

(** Whether the outcome is a receive from a closed channel. *)
Definition closed (s : selected) : bool :=
  match s with
  | fromEvents None => true
  | fromEvents (Some _) => false
  | fromTimeoutSub ok => negb ok
  | fromFinalCommittedSub ok => negb ok
  end.

(** The type switch on [event.Data]: three cases and no default; the error
    each handler returns is assigned to [_]. *)
Definition dispatchEvent (ev : event) : M unit :=
  match ev with
  | RequestEvent proposal =>
      _ <- handleRequest {| ReqProposal := proposal |} ;; ret tt
  | MessageEvent Payload =>
      _ <- handleMsg Payload ;; ret tt
  | backlogEvent msg src =>
      _ <- handleCheckedMsg msg src ;; ret tt
  | _ => ret tt
  end.

(** Where [handleEvents] stands once the outcomes given to it are used
    up: back in the [select], or returned. *)
Inductive loopStatus : Type := Selecting | Returned.

(** [handleEvents], run against the outcomes its [select] yields, in
    order. *)
Fixpoint handleEvents (feed : list selected) : M loopStatus :=
  match feed with
  | [] => ret Selecting
  | fromEvents None :: _ =>
      logError "Failed to receive msg Event" ;;; ret Returned
  | fromEvents (Some ev) :: rest =>
      dispatchEvent ev ;;; handleEvents rest
  | fromTimeoutSub false :: _ =>
      logError "Failed to receive timeout Event" ;;; ret Returned
  | fromTimeoutSub true :: rest =>
      handleTimeoutMsg ;;; handleEvents rest
  | fromFinalCommittedSub false :: _ =>
      logError "Failed to receive finalCommitted Event" ;;; ret Returned
  | fromFinalCommittedSub true :: rest =>
      handleFinalCommitted ;;; handleEvents rest
  end.

(** What one outcome of the [select] runs when its channel is open. *)
Definition processOne (s : selected) : M unit :=
  match s with
  | fromEvents (Some ev) => dispatchEvent ev
  | fromTimeoutSub true => handleTimeoutMsg
  | fromFinalCommittedSub true => handleFinalCommitted
  | _ => ret tt
  end.

(** The switch of [handleCheckedMsg] read as a function: the handler of
    the first case that matches, if any. *)
Definition MsgType (h : handlerName) : Z :=
  match h with
  | HNewView => MsgTypeNewView
  | HPrepare => MsgTypePrepare
  | HPrepareVote => MsgTypePrepareVote
  | HPreCommit => MsgTypePreCommit
  | HPreCommitVote => MsgTypePreCommitVote
  | HCommit => MsgTypeCommit
  | HCommitVote => MsgTypeCommitVote
  end.

Definition allHandlers : list handlerName :=
  [HNewView; HPrepare; HPrepareVote; HPreCommit; HPreCommitVote; HCommit; HCommitVote].

Definition handlerFor (code : Z) : option handlerName :=
  find (fun h => code =? MsgType h) allHandlers.

(** The handlers invoked and the messages stored, read off the calls. *)
Definition handlerCalls (t : list Call) : list handlerName :=
  flat_map (fun x => match x with call_handler h _ _ => [h] | _ => [] end) t.

Definition backlogCalls (t : list Call) : list (message * Validator) :=
  flat_map (fun x => match x with call_storeBacklog m v => [(m, v)] | _ => [] end) t.

End Methods.

(** ** The methods of the core as the specification describes them *)

Section SpecModel.

(** What the specification leaves to collaborators: the seven message
    codes, the message codec, the outcome of a handler's validation of an
    on-time message (proposer, digest, QC, extension and SafeNode checks,
    vote aggregation), and the event mux. *)
Variable codeOf : handlerName -> Z.
Variable decode : list byte -> core -> message + error.
Variable verdict : handlerName -> message -> Validator -> core -> goerror.
Variable muxSubscribe : list eventType -> Backend -> Subscription * Backend.
Variable muxUnsubscribe : Subscription -> Backend -> Backend.

(** Modelled from the spec: the order of the phases, "NewView -> Prepare
    -> PreCommit -> Commit -> Decide". *)
Definition nextPhase (p : Phase) : Phase :=
  match p with
  | NewView => Prepare
  | Prepare => PreCommit
  | PreCommit => Commit
  | Commit => Decide
  | Decide => Decide
  end.

(** The vote-kind handlers: PrepareVote, PreCommitVote, CommitVote. *)
Definition isVote (h : handlerName) : bool :=
  match h with
  | HPrepareVote | HPreCommitVote | HCommitVote => true
  | _ => false
  end.

(** Modelled from the spec: [Drain(round)] of the Backlog, missing from the
    files at hand: the entries of that round leave the Backlog (they are
    replayed as backlog events), the others stay in insertion order. *)
Definition spec_drain (r : Z) (l : list (message * Validator)) : list (message * Validator) :=
  filter (fun e => negb (MsgRound (fst e) =? r)) l.

(** Modelled from the spec: [startNewRound], missing from the files at
    hand.  The round becomes the one asked for and the phase restarts at
    NewView; the prior timer is stopped and a new one started; the Backlog
    is drained for the new round. *)
Definition spec_startNewRound (r : Z) (c : core) : core :=
  set_backlogs (spec_drain r (backlogs c))
    (set_timerActive true
       (set_current {| round := r; state := NewView |} c)).

(** Modelled from the spec: [handleRequest], missing from the files at
    hand: the request is recorded, whether or not this replica is the
    proposer. *)
Definition spec_handleRequest (req : Request) (c : core) : goerror * core :=
  (None, set_pendingRequest (Some req) c).

(** Modelled from the spec: the seven per-code handlers, missing from the
    files at hand.  A message of a round ahead of the current one is a
    FutureMessage, one of a round behind is an OldMessage (OldVote for a
    vote); an on-time message is validated, a rejection is returned, and on
    success a proposal-kind handler advances the local phase while a
    vote-kind handler records the vote. *)
Definition spec_handler (h : handlerName) (msg : message) (src : Validator)
    (c : core) : goerror * core :=
  if Round (current c) <? MsgRound msg then (Some errFutureMessage, c)
  else if MsgRound msg <? Round (current c) then
    (Some (if isVote h then errOldVote else errOldMessage), c)
  else
    match verdict h msg src c with
    | Some e => (Some e, c)
    | None =>
        if isVote h then (None, c)
        else (None, set_current {| round := Round (current c);
                                   state := nextPhase (state (current c)) |} c)
    end.

(** Modelled from the spec: [storeBacklog], missing from the files at
    hand: a Backlog entry is the message with its resolved signer, kept in
    insertion order. *)
Definition spec_storeBacklog (msg : message) (src : Validator) (c : core) : core :=
  set_backlogs (backlogs c ++ [(msg, src)]) c.

(** Modelled from the spec: [handleFinalCommitted], missing from the files
    at hand: it "starts the next round (currentRound+1) fresh at NewView". *)
Definition spec_handleFinalCommitted (c : core) : core :=
  spec_startNewRound (Round (current c) + 1) c.

(** Modelled from the spec: [stopTimer], missing from the files at hand:
    idempotent, and safe with no active timer. *)
Definition spec_stopTimer (c : core) : core := set_timerActive false c.

(** Modelled from the spec: the methods above, gathered. *)
Definition specMethods : CoreMethods := {|
  MsgTypeNewView := codeOf HNewView;
  MsgTypePrepare := codeOf HPrepare;
  MsgTypePrepareVote := codeOf HPrepareVote;
  MsgTypePreCommit := codeOf HPreCommit;
  MsgTypePreCommitVote := codeOf HPreCommitVote;
  MsgTypeCommit := codeOf HCommit;
  MsgTypeCommitVote := codeOf HCommitVote;
  startNewRound_impl := spec_startNewRound;
  handleRequest_impl := spec_handleRequest;
  FromPayload_impl := decode;
  handler_impl := spec_handler;
  storeBacklog_impl := spec_storeBacklog;
  handleFinalCommitted_impl := spec_handleFinalCommitted;
  stopTimer_impl := spec_stopTimer;
  Subscribe_impl := muxSubscribe;
  Unsubscribe_impl := muxUnsubscribe
|}.

End SpecModel.

End Core.
Arguments Request : clear implicits.
Arguments message : clear implicits.
Arguments event : clear implicits.
Arguments ValidatorSet : clear implicits.
Arguments core : clear implicits.
Arguments Call : clear implicits.
Arguments selected : clear implicits.
Arguments CoreMethods : clear implicits.
Arguments M : clear implicits.

Notation "x <- m ;; k" := (bind m (fun x => k))
  (at level 61, m at next level, right associativity) : core_scope.
Notation "m ;;; k" := (bind m (fun _ => k))
  (at level 61, right associativity) : core_scope.

(* ================================================================== *)
(** * The zero-copy sink and source that param.go writes to and reads from *)
(* ================================================================== *)

(** The writes of [polycomm.ZeroCopySink] that param.go calls. *)
Class SinkWriter (Sink : Type) : Type := {
  WriteUint64 : Z -> Sink -> Sink;
  WriteAddress : address -> Sink -> Sink;
  WriteVarBytes : list byte -> Sink -> Sink
}.

(** The reads of [polycomm.ZeroCopySource] that param.go calls: each gives
    the value read, the [eof] flag and the source after the read. *)
Class SourceReader (Source : Type) : Type := {
  NextUint64 : Source -> Z * bool * Source;
  NextAddress : Source -> address * bool * Source;
  NextVarBytes : Source -> list byte * bool * Source
}.

(** The package [github.com/polynetwork/poly/common] is a dependency of the
    repository; its sink and source are written here after its wire
    format: fixed-width integers are little-endian, a variable-length
    integer is one byte below 0xFD or a tag 0xFD, 0xFE, 0xFF followed by 2,
    4, 8 little-endian bytes, a byte string is its length as a
    variable-length integer followed by its bytes, an address is its 20
    bytes. *)
Module polycomm.

Definition Z_of_byte (b : byte) : Z := Z.of_N (Byte.to_N b).

Definition byte_of_Z (z : Z) : byte :=
  match Byte.of_N (Z.to_N (z mod 256)) with
  | Some b => b
  | None => x00
  end.

(** [binary.LittleEndian.PutUintN] on [n] bytes and [binary.LittleEndian.UintN]. *)
Fixpoint le_encode (n : nat) (v : Z) : list byte :=
  match n with
  | O => []
  | S n' => byte_of_Z v :: le_encode n' (v / 256)
  end.

Fixpoint le_decode (l : list byte) : Z :=
  match l with
  | [] => 0
  | b :: l' => Z_of_byte b + 256 * le_decode l'
  end.

Definition UINT16_SIZE : Z := 2.
Definition UINT32_SIZE : Z := 4.
Definition UINT64_SIZE : Z := 8.
Definition ADDR_LEN : Z := 20.

(** [ZeroCopySink]: a growing buffer. *)
Record ZeroCopySink : Type := { buf : list byte }.

Definition NewZeroCopySink : ZeroCopySink := {| buf := [] |}.
Definition Bytes (self : ZeroCopySink) : list byte := buf self.

Definition WriteBytes (p : list byte) (self : ZeroCopySink) : ZeroCopySink :=
  {| buf := buf self ++ p |}.

Definition sink_WriteUint64 (data : Z) (self : ZeroCopySink) : ZeroCopySink :=
  WriteBytes (le_encode 8 data) self.

Definition WriteVarUint (data : Z) (self : ZeroCopySink) : ZeroCopySink :=
  if data <? 0xFD then WriteBytes [byte_of_Z data] self
  else if data <=? 0xFFFF then WriteBytes (byte_of_Z 0xFD :: le_encode 2 data) self
  else if data <=? 0xFFFFFFFF then WriteBytes (byte_of_Z 0xFE :: le_encode 4 data) self
  else WriteBytes (byte_of_Z 0xFF :: le_encode 8 data) self.

Definition sink_WriteVarBytes (data : list byte) (self : ZeroCopySink) : ZeroCopySink :=
  WriteBytes data (WriteVarUint (Z.of_nat (List.length data)) self).

Definition sink_WriteAddress (addr : address) (self : ZeroCopySink) : ZeroCopySink :=
  WriteBytes addr self.

(** [ZeroCopySource]: the bytes and the reading offset (a uint64). *)
Record ZeroCopySource : Type := { s : list byte; off : Z }.

Definition NewZeroCopySource (b : list byte) : ZeroCopySource := {| s := b; off := 0 |}.

(** [SafeAdd] on uint64: the wrapped sum and whether it overflowed. *)
Definition SafeAdd (x y : Z) : Z * bool :=
  let r := (x + y) mod 2 ^ 64 in (r, r <? x).

(** The slice [l[a:b]]. *)
Definition slice (l : list byte) (a b : Z) : list byte :=
  firstn (Z.to_nat (b - a)) (skipn (Z.to_nat a) l).

Definition NextBytes (n : Z) (self : ZeroCopySource) : list byte * bool * ZeroCopySource :=
  let m := Z.of_nat (List.length (s self)) in
  let '(end_, overflow) := SafeAdd (off self) n in
  let eof := overflow || (m <? end_) in
  let end_ := if eof then m else end_ in
  (slice (s self) (off self) end_, eof, {| s := s self; off := end_ |}).

Definition NextByte (self : ZeroCopySource) : byte * bool * ZeroCopySource :=
  if Z.of_nat (List.length (s self)) <=? off self then (x00, true, self)
  else (nth (Z.to_nat (off self)) (s self) x00, false,
        {| s := s self; off := off self + 1 |}).

(** [NextUint16], [NextUint32], [NextUint64]: [size] bytes, little-endian. *)
Definition NextUint (size : Z) (self : ZeroCopySource) : Z * bool * ZeroCopySource :=
  let '(b, eof, self') := NextBytes size self in
  if eof then (0, true, self') else (le_decode b, false, self').

Definition source_NextUint64 : ZeroCopySource -> Z * bool * ZeroCopySource :=
  NextUint UINT64_SIZE.

Definition NextVarUint (self : ZeroCopySource) : Z * bool * ZeroCopySource :=
  let '(fb, eof, self1) := NextByte self in
  if eof then (0, true, self1)
  else if Z_of_byte fb =? 0xFD then NextUint UINT16_SIZE self1
  else if Z_of_byte fb =? 0xFE then NextUint UINT32_SIZE self1
  else if Z_of_byte fb =? 0xFF then NextUint UINT64_SIZE self1
  else (Z_of_byte fb, false, self1).

Definition source_NextVarBytes (self : ZeroCopySource) : list byte * bool * ZeroCopySource :=
  let '(count, eof, self1) := NextVarUint self in
  if eof then ([], true, self1) else NextBytes count self1.

Definition source_NextAddress (self : ZeroCopySource) : address * bool * ZeroCopySource :=
  let '(b, eof, self1) := NextBytes ADDR_LEN self in
  if eof then (repeat x00 (Z.to_nat ADDR_LEN), true, self1) else (b, false, self1).

#[export] Instance sinkWriter : SinkWriter ZeroCopySink := {|
  WriteUint64 := sink_WriteUint64;
  WriteAddress := sink_WriteAddress;
  WriteVarBytes := sink_WriteVarBytes
|}.

#[export] Instance sourceReader : SourceReader ZeroCopySource := {|
  NextUint64 := source_NextUint64;
  NextAddress := source_NextAddress;
  NextVarBytes := source_NextVarBytes
|}.

End polycomm.

(* ================================================================== *)
(** * The header-sync parameters and their codecs (param.go) *)
(* ================================================================== *)

(** [for _, v := range l { sink.WriteVarBytes(v) }]. *)
Fixpoint writeVarBytesRange {Sink : Type} `{SinkWriter Sink}
    (l : list (list byte)) (sink : Sink) : Sink :=
  match l with
  | [] => sink
  | v :: l' => writeVarBytesRange l' (WriteVarBytes v sink)
  end.

(** [for i := 0; uint64(i) < n; i++ { item, eof := source.NextVarBytes();
    if eof { return error }; items = append(items, item) }], by recursion
    on the iterations left ([k] is [n - i]): the items read, or [None] at
    the first [eof], with the source as the loop leaves it. *)
Fixpoint nextVarBytesLoop {Source : Type} `{SourceReader Source}
    (k : nat) (items : list (list byte)) (source : Source)
    : option (list (list byte)) * Source :=
  match k with
  | O => (Some items, source)
  | S k' =>
      let '(item, eof, source') := NextVarBytes source in
      if eof then (None, source')
      else nextVarBytesLoop k' (items ++ [item]) source'
  end.

Module SyncGenesisHeaderParam.

Record t : Type := {
  ChainID : Z;
  GenesisHeader : list byte
}.

Definition Serialization {Sink : Type} `{SinkWriter Sink} (this : t) (sink : Sink) : Sink :=
  let sink := WriteUint64 (ChainID this) sink in
  WriteVarBytes (GenesisHeader this) sink.

(** The error (or nil), the receiver and the source after the call. *)
Definition Deserialization {Source : Type} `{SourceReader Source}
    (this : t) (source : Source) : option string * t * Source :=
  let '(chainID, eof, source) := NextUint64 source in
  if eof then
    (Some "SyncGenesisHeaderParam deserialize chainID error"%string, this, source)
  else
    let '(genesisHeader, eof, source) := NextVarBytes source in
    if eof then
      (Some "utils.DecodeVarBytes, deserialize genesisHeader count error"%string, this, source)
    else
      (None, {| ChainID := chainID; GenesisHeader := genesisHeader |}, source).

End SyncGenesisHeaderParam.

Module SyncBlockHeaderParam.

Record t : Type := {
  ChainID : Z;
  Address : address;
  Headers : list (list byte)
}.

Definition Serialization {Sink : Type} `{SinkWriter Sink} (this : t) (sink : Sink) : Sink :=
  let sink := WriteUint64 (ChainID this) sink in
  let sink := WriteAddress (Address this) sink in
  let sink := WriteUint64 (Z.of_nat (List.length (Headers this))) sink in
  writeVarBytesRange (Headers this) sink.

Definition Deserialization {Source : Type} `{SourceReader Source}
    (this : t) (source : Source) : option string * t * Source :=
  let '(chainID, eof, source) := NextUint64 source in
  if eof then
    (Some "SyncGenesisHeaderParam deserialize chainID error"%string, this, source)
  else
    let '(address, eof, source) := NextAddress source in
    if eof then
      (Some "utils.DecodeAddress, deserialize address error"%string, this, source)
    else
      let '(n, eof, source) := NextUint64 source in
      if eof then
        (Some "utils.DecodeVarUint, deserialize header count error"%string, this, source)
      else
        match nextVarBytesLoop (Z.to_nat n) [] source with
        | (None, source) =>
            (Some "utils.DecodeVarBytes, deserialize header error"%string, this, source)
        | (Some headers, source) =>
            (None, {| ChainID := chainID; Address := address; Headers := headers |}, source)
        end.

End SyncBlockHeaderParam.

Module SyncCrossChainMsgParam.

Record t : Type := {
  ChainID : Z;
  Address : address;
  CrossChainMsgs : list (list byte)
}.

Definition Serialization {Sink : Type} `{SinkWriter Sink} (this : t) (sink : Sink) : Sink :=
  let sink := WriteUint64 (ChainID this) sink in
  let sink := WriteAddress (Address this) sink in
  let sink := WriteUint64 (Z.of_nat (List.length (CrossChainMsgs this))) sink in
  writeVarBytesRange (CrossChainMsgs this) sink.

Definition Deserialization {Source : Type} `{SourceReader Source}
    (this : t) (source : Source) : option string * t * Source :=
  let '(chainID, eof, source) := NextUint64 source in
  if eof then
    (Some "SyncGenesisHeaderParam deserialize chainID error"%string, this, source)
  else
    let '(address, eof, source) := NextAddress source in
    if eof then
      (Some "utils.DecodeAddress, deserialize address error"%string, this, source)
    else
      let '(n, eof, source) := NextUint64 source in
      if eof then
        (Some "utils.DecodeVarUint, deserialize header count error"%string, this, source)
      else
        match nextVarBytesLoop (Z.to_nat n) [] source with
        | (None, source) =>
            (Some "utils.DecodeVarBytes, deserialize crossChainMsg error"%string, this, source)
        | (Some crossChainMsgs, source) =>
            (None, {| ChainID := chainID; Address := address;
                      CrossChainMsgs := crossChainMsgs |}, source)
        end.

End SyncCrossChainMsgParam.

(** The error and the receiver of a [Deserialization]. *)
Definition errOf {T Source : Type} (r : option string * T * Source) : option string := fst (fst r).
Definition receiverOf {T Source : Type} (r : option string * T * Source) : T := snd (fst r).

(* ================================================================== *)
(** * A concrete core, and the properties at concrete inputs *)
(* ================================================================== *)

Module Demo.

Import polycomm.

(** A proposal is its number, a validator its address, a subscription its
    number; the backend counts the subscriptions handed out. *)
Definition Proposal : Type := Z.
Definition Validator : Type := address.
Definition Subscription : Type := nat.
Definition Backend : Type := nat.

Definition dcore : Type := core Proposal Validator Subscription Backend.
Definition dmessage : Type := message.

Definition codeOf (h : handlerName) : Z :=
  match h with
  | HNewView => 1
  | HPrepare => 2
  | HPrepareVote => 3
  | HPreCommit => 4
  | HPreCommitVote => 5
  | HCommit => 6
  | HCommitVote => 7
  end.

(** A three-part payload: the code, the round, then the sender's address. *)
Definition decode (payload : list byte) (c : dcore) : dmessage + error :=
  match payload with
  | code :: rnd :: addr =>
      inl {| Code := Z_of_byte code; Address := addr; MsgRound := Z_of_byte rnd;
             Msg := []; Signature := [] |}
  | _ => inr (errOther "short payload")
  end.

(** Every on-time message passes validation. *)
Definition verdict (h : handlerName) (msg : dmessage) (src : Validator) (c : dcore) : goerror :=
  None.

Definition muxSubscribe (types : list eventType) (b : Backend) : Subscription * Backend :=
  (b, S b).

Definition muxUnsubscribe (sub : Subscription) (b : Backend) : Backend := b.

Definition methods : CoreMethods Proposal Validator Subscription Backend :=
  specMethods codeOf decode verdict muxSubscribe muxUnsubscribe.

(** One validator, at address 01. *)
Definition validator1 : Validator := [x01].

Definition valSet1 : ValidatorSet Validator :=
  {| GetByAddress := fun a =>
       match a with
       | [x01] => (0, Some validator1)
       | _ => (-1, None)
       end |}.

(** A core in round 3, phase PreCommit. *)
Definition core3 : dcore :=
  {| current := {| round := 3; state := PreCommit |};
     valSet := valSet1;
     events := 0%nat; timeoutSub := 1%nat; finalCommittedSub := 2%nat;
     backend := 3%nat;
     backlogs := [];
     pendingRequest := None;
     timerActive := true |}.

(** A NewView message of round 5 from validator 1, and its payload. *)
Definition newView5 : dmessage :=
  {| Code := 1; Address := [x01]; MsgRound := 5; Msg := []; Signature := [] |}.
Definition payloadNewView5 : list byte := [x01; x05; x01].

(** A Prepare message of round 3 from validator 1. *)
Definition prepare3 : dmessage :=
  {| Code := 2; Address := [x01]; MsgRound := 3; Msg := []; Signature := [] |}.
Definition payloadPrepare3 : list byte := [x02; x03; x01].

(** A message of round 3 with code 9, a payload from the unknown address 02
    and a payload too short to decode. *)
Definition unknown3 : dmessage :=
  {| Code := 9; Address := [x01]; MsgRound := 3; Msg := []; Signature := [] |}.
Definition payloadStranger : list byte := [x02; x03; x02].
Definition payloadShort : list byte := [x02].

(** One value of each parameter struct, for chain 7. *)
Definition genesis7 : SyncGenesisHeaderParam.t :=
  {| SyncGenesisHeaderParam.ChainID := 7;
     SyncGenesisHeaderParam.GenesisHeader := [x0a; x0b; x0c] |}.

Definition headers7 : SyncBlockHeaderParam.t :=
  {| SyncBlockHeaderParam.ChainID := 7;
     SyncBlockHeaderParam.Address := repeat xab 20;
     SyncBlockHeaderParam.Headers := [[x0a; x0b]; []; [x0c]] |}.

Definition msgs7 : SyncCrossChainMsgParam.t :=
  {| SyncCrossChainMsgParam.ChainID := 7;
     SyncCrossChainMsgParam.Address := repeat xab 20;
     SyncCrossChainMsgParam.CrossChainMsgs := [[x0a; x0b]; []; [x0c]] |}.

(** Receivers holding other values. *)
Definition genesis0 : SyncGenesisHeaderParam.t :=
  {| SyncGenesisHeaderParam.ChainID := 0;
     SyncGenesisHeaderParam.GenesisHeader := [] |}.

Definition headers0 : SyncBlockHeaderParam.t :=
  {| SyncBlockHeaderParam.ChainID := 0;
     SyncBlockHeaderParam.Address := repeat x00 20;
     SyncBlockHeaderParam.Headers := [] |}.

Definition msgs0 : SyncCrossChainMsgParam.t :=
  {| SyncCrossChainMsgParam.ChainID := 0;
     SyncCrossChainMsgParam.Address := repeat x00 20;
     SyncCrossChainMsgParam.CrossChainMsgs := [] |}.

(** The bytes of [headers7] with the last byte cut off. *)
Definition headers7Truncated : list byte :=
  removelast (Bytes (SyncBlockHeaderParam.Serialization headers7 NewZeroCopySink)).

End Demo.

(* ================================================================== *)
(** * Reading a run of the event loop *)
(* ================================================================== *)

Section Reading.

Context {Proposal Validator Subscription Backend : Type}.
Local Abbreviation Call := (Call Proposal Validator Subscription).
Local Abbreviation selected := (selected Proposal Validator).
Local Abbreviation core := (core Proposal Validator Subscription Backend).

(** The kinds of call handler.go makes. *)
Definition isStartNewRound (x : Call) : bool :=
  match x with call_startNewRound _ => true | _ => false end.
Definition isHandleRequest (x : Call) : bool :=
  match x with call_handleRequest _ => true | _ => false end.
Definition isHandler (x : Call) : bool :=
  match x with call_handler _ _ _ => true | _ => false end.
Definition isStoreBacklog (x : Call) : bool :=
  match x with call_storeBacklog _ _ => true | _ => false end.
Definition isHandleFinalCommitted (x : Call) : bool :=
  match x with call_handleFinalCommitted => true | _ => false end.

(** How many calls of a kind a run made. *)
Definition countCalls (p : Call -> bool) (t : list Call) : nat :=
  List.length (filter p t).

(** The kinds of outcome of the [select]. *)
Definition isTimeout (s : selected) : bool :=
  match s with fromTimeoutSub true => true | _ => false end.
Definition isFinalCommitted (s : selected) : bool :=
  match s with fromFinalCommittedSub true => true | _ => false end.
Definition isRequest (s : selected) : bool :=
  match s with fromEvents (Some (RequestEvent _)) => true | _ => false end.
Definition isMessage (s : selected) : bool :=
  match s with
  | fromEvents (Some (MessageEvent _)) | fromEvents (Some (backlogEvent _ _)) => true
  | _ => false
  end.

Definition countSelected (q : selected -> bool) (feed : list selected) : nat :=
  List.length (filter q feed).

(** The outcomes delivered before the first closed channel, and those up
    to and including it. *)
Fixpoint livePrefix (feed : list selected) : list selected :=
  match feed with
  | [] => []
  | s :: rest => if closed s then [] else s :: livePrefix rest
  end.

Fixpoint upToClose (feed : list selected) : list selected :=
  match feed with
  | [] => []
  | s :: rest => if closed s then [s] else s :: upToClose rest
  end.

(** In a list of calls, every [storeBacklog] comes straight after the call
    of a handler on the same message and signer. *)
Inductive storesFollowHandlers : list Call -> Prop :=
| sfh_nil : storesFollowHandlers []
| sfh_stored (h : handlerName) (msg : message) (src : Validator) (t : list Call) :
    storesFollowHandlers t ->
    storesFollowHandlers (call_handler h msg src :: call_storeBacklog msg src :: t)
| sfh_other (x : Call) (t : list Call) :
    isStoreBacklog x = false ->
    storesFollowHandlers t ->
    storesFollowHandlers (x :: t).

(** The calls of [handleCheckedMsg]: one handler, one handler followed by
    the store of the message, or the log line of an unknown code. *)
Definition checkedCalls (msg : message) (src : Validator) (t : list Call) : Prop :=
  (exists h, t = [call_handler h msg src])
  \/ (exists h, t = [call_handler h msg src; call_storeBacklog msg src])
  \/ t = [call_log LvlError "msg type invalid"].

(** The calls of one outcome of the [select]. *)
Definition stepCalls (s : selected) (c : core) (t : list Call) : Prop :=
  match s with
  | fromTimeoutSub true =>
      t = [call_log LvlTrace "handleTimeout"; call_startNewRound (Round (current c) + 1)]
  | fromFinalCommittedSub true => t = [call_handleFinalCommitted]
  | fromEvents (Some (RequestEvent p)) => t = [call_handleRequest {| ReqProposal := p |}]
  | fromEvents (Some (MessageEvent _)) =>
      (exists text, t = [call_log LvlError text]) \/ exists msg src, checkedCalls msg src t
  | fromEvents (Some (backlogEvent msg src)) => checkedCalls msg src t
  | _ => t = []
  end.

End Reading.

(* ================================================================== *)
(** * Reading a byte string against an encoding *)
(* ================================================================== *)

Section Encodings.

Import polycomm.

(** [q] is [b] with at least one byte cut off its end. *)
Definition strictPrefix (q b : list byte) : Prop :=
  exists t, t <> [] /\ b = q ++ t.

(** The source after a [Deserialization]. *)
Definition sourceOf {T Source : Type} (r : option string * T * Source) : Source := snd r.

(** What the Go types guarantee of a value of each struct: the chain id is
    a uint64 and the address has 20 bytes. *)
Definition wellTypedGenesis (p : SyncGenesisHeaderParam.t) : Prop :=
  0 <= SyncGenesisHeaderParam.ChainID p < 2 ^ 64.

Definition wellTypedHeaders (p : SyncBlockHeaderParam.t) : Prop :=
  0 <= SyncBlockHeaderParam.ChainID p < 2 ^ 64
  /\ Z.of_nat (List.length (SyncBlockHeaderParam.Address p)) = AddressLength.

Definition wellTypedMsgs (p : SyncCrossChainMsgParam.t) : Prop :=
  0 <= SyncCrossChainMsgParam.ChainID p < 2 ^ 64
  /\ Z.of_nat (List.length (SyncCrossChainMsgParam.Address p)) = AddressLength.

(** The bytes a value serializes to. *)
Definition genesisBytes (p : SyncGenesisHeaderParam.t) : list byte :=
  Bytes (SyncGenesisHeaderParam.Serialization p NewZeroCopySink).

Definition headersBytes (p : SyncBlockHeaderParam.t) : list byte :=
  Bytes (SyncBlockHeaderParam.Serialization p NewZeroCopySink).

Definition msgsBytes (p : SyncCrossChainMsgParam.t) : list byte :=
  Bytes (SyncCrossChainMsgParam.Serialization p NewZeroCopySink).

(** The offset lies within the bytes. *)
Definition within (src : ZeroCopySource) : Prop :=
  0 <= off src <= Z.of_nat (List.length (s src)).

End Encodings.

(** The values of package core's errors: every error but one made
    elsewhere. *)
Definition isPackageError (e : error) : bool :=
  match e with
  | errOther _ => false
  | _ => true
  end.


(** The bytes of [Demo.genesis7] followed by those of [Demo.headers7], as
    one sink holds them after the two [Serialization] calls. *)
Definition genesisThenHeaders : list byte :=
  polycomm.Bytes
    (SyncBlockHeaderParam.Serialization (H := polycomm.sinkWriter) Demo.headers7
       (SyncGenesisHeaderParam.Serialization (H := polycomm.sinkWriter) Demo.genesis7
          polycomm.NewZeroCopySink)).

(* ================================================================== *)
(** * Properties *)
(* ================================================================== *)

(** ** Properties of handler.go, for any implementation of the methods *)

Section CoreFacts.

Context {Proposal Validator Subscription Backend : Type}.
Local Abbreviation core := (core Proposal Validator Subscription Backend).
Local Abbreviation CoreMethods := (CoreMethods Proposal Validator Subscription Backend).
Local Abbreviation M := (M Proposal Validator Subscription Backend).
Local Abbreviation Call := (Call Proposal Validator Subscription).
Local Abbreviation selected := (selected Proposal Validator).
Context {CM : CoreMethods}.
Local Open Scope core_scope.

(** Unfolds the monad and the method wrappers. *)
Ltac unfold_run :=
  unfold handleMsg, handleTimeoutMsg, Stop, unsubscribeEvents, subscribeEvents,
    testBacklog, dispatchEvent,
    handleNewView, handlePrepare, handlePrepareVote, handlePreCommit,
    handlePreCommitVote, handleCommit, handleCommitVote,
    startNewRound, handleRequest, FromPayload, callHandler, storeBacklog,
    handleFinalCommitted, stopTimer, Subscribe, Unsubscribe,
    logTrace, logError, bind, ret, get, modify, emit,
    result, final, calls in *.

Lemma bind_run {A B} (m : M A) (f : A -> M B) (c : core) :
  bind m f c =
  (result (f (result (m c)) (final (m c))),
   final (f (result (m c)) (final (m c))),
   calls (m c) ++ calls (f (result (m c)) (final (m c)))).
Proof.
  unfold bind, result, final, calls.
  destruct (m c) as [[a c1] t1]; simpl.
  destruct (f a c1) as [[b c2] t2]; reflexivity.
Qed.

Lemma run_eta {A} (r : A * core * list Call) : r = (result r, final r, calls r).
Proof. destruct r as [[a c] t]; reflexivity. Qed.

(** The switch of [handleCheckedMsg] takes the case [handlerFor] names. *)
Lemma handleCheckedMsg_switch (msg : message) (src : Validator) :
  handleCheckedMsg msg src =
  match handlerFor (Code msg) with
  | Some h => err <- callHandler h msg src ;; testBacklog msg src err
  | None => logError "msg type invalid" ;;; ret (Some errInvalidMessage)
  end.
Proof.
  unfold handleCheckedMsg, handlerFor, allHandlers, find, MsgType,
    handleNewView, handlePrepare, handlePrepareVote, handlePreCommit,
    handlePreCommitVote, handleCommit, handleCommitVote.
  repeat match goal with
         | |- context [if ?b then _ else _] => destruct b; [reflexivity|]
         end.
  reflexivity.
Qed.

(** What [handlerFor] answers: a handler whose code is the message's, and
    none exactly when the code is none of the seven. *)
Lemma handlerFor_Some (code : Z) (h : handlerName) :
  handlerFor code = Some h -> code = MsgType h.
Proof.
  intros H. apply find_some in H. destruct H as [_ H].
  apply Z.eqb_eq in H. exact H.
Qed.

Lemma handlerFor_None (code : Z) :
  handlerFor code = None <-> (forall h, code <> MsgType h).
Proof.
  split.
  - intros H h. pose proof (find_none _ _ H h) as Hn.
    assert (Hin : In h allHandlers) by (destruct h; simpl; tauto).
    specialize (Hn Hin). apply Z.eqb_neq in Hn. exact Hn.
  - intros H. unfold handlerFor.
    destruct (find (fun h => code =? MsgType h) allHandlers) as [h|] eqn:E; [|reflexivity].
    apply find_some in E. destruct E as [_ E]. apply Z.eqb_eq in E.
    exfalso. exact (H h E).
Qed.

(** The run of one matching case. *)
Lemma handleCheckedMsg_case (msg : message) (src : Validator) (c : core) (h : handlerName) :
  handlerFor (Code msg) = Some h ->
  handleCheckedMsg msg src c =
  let err := fst (handler_impl h msg src c) in
  let c1 := snd (handler_impl h msg src c) in
  if isFutureMessage err
  then (err, storeBacklog_impl msg src c1, [call_handler h msg src; call_storeBacklog msg src])
  else (err, c1, [call_handler h msg src]).
Proof.
  intros H. rewrite handleCheckedMsg_switch, H. unfold_run.
  destruct (handler_impl h msg src c) as [err c1]; simpl.
  destruct (isFutureMessage err); reflexivity.
Qed.

Lemma handleCheckedMsg_unknown (msg : message) (src : Validator) (c : core) :
  handlerFor (Code msg) = None ->
  handleCheckedMsg msg src c =
  (Some errInvalidMessage, c, [call_log LvlError "msg type invalid"]).
Proof.
  intros H. rewrite handleCheckedMsg_switch, H. reflexivity.
Qed.

(** The three ways through [handleMsg]. *)
Lemma handleMsg_decode_error (payload : list byte) (c : core) (err : error) :
  FromPayload_impl payload c = inr err ->
  handleMsg payload c =
    (Some err, c, [call_log LvlError "Failed to decode message from payload"]).
Proof.
  intros H. unfold_run. rewrite H. reflexivity.
Qed.

Lemma handleMsg_invalid_signer (payload : list byte) (c : core) (msg : message) :
  FromPayload_impl payload c = inl msg ->
  snd (GetByAddress (valSet c) (Address msg)) = None ->
  handleMsg payload c =
    (Some errInvalidSigner, c, [call_log LvlError "Invalid address in message"]).
Proof.
  intros H H0. unfold_run. rewrite H, H0. reflexivity.
Qed.

Lemma handleMsg_checked (payload : list byte) (c : core) (msg : message) (src : Validator) :
  FromPayload_impl payload c = inl msg ->
  snd (GetByAddress (valSet c) (Address msg)) = Some src ->
  handleMsg payload c = handleCheckedMsg msg src c.
Proof.
  intros H H0. unfold_run. rewrite H, H0. simpl.
  destruct (handleCheckedMsg msg src c) as [[e c1] t]. reflexivity.
Qed.

(** C1. On a timeout the core calls [startNewRound] once, with the current
    round plus one, whatever the phase it is in: that holds of
    [handleTimeoutMsg] and of the timeout case of [handleEvents]. *)
Theorem handleTimeoutMsg_starts_round_plus_one (c : core) (r : Z) (p : Phase) :
  let c0 := set_current {| round := r; state := p |} c in
  handleTimeoutMsg c0 =
    (tt, startNewRound_impl (r + 1) c0,
     [call_log LvlTrace "handleTimeout"; call_startNewRound (r + 1)])
  /\ handleEvents [fromTimeoutSub true] c0 =
    (Selecting, startNewRound_impl (r + 1) c0,
     [call_log LvlTrace "handleTimeout"; call_startNewRound (r + 1)]).
Proof.
  split; reflexivity.
Qed.

(** C3. [handleMsg] decodes first and returns the decoder's error; then it
    resolves the sender, and for an address that resolves to no validator
    it returns [errInvalidSigner], leaving the core as it was: no handler
    is invoked and nothing is stored in the Backlog.  Only a message that
    passed both goes on to [handleCheckedMsg]. *)
Theorem handleMsg_decodes_then_resolves_signer (payload : list byte) (c : core) :
  (forall err,
      FromPayload_impl payload c = inr err ->
      handleMsg payload c =
        (Some err, c, [call_log LvlError "Failed to decode message from payload"]))
  /\ (forall msg,
      FromPayload_impl payload c = inl msg ->
      snd (GetByAddress (valSet c) (Address msg)) = None ->
      handleMsg payload c =
        (Some errInvalidSigner, c, [call_log LvlError "Invalid address in message"])
      /\ handlerCalls (calls (handleMsg payload c)) = []
      /\ backlogCalls (calls (handleMsg payload c)) = [])
  /\ (forall msg src,
      FromPayload_impl payload c = inl msg ->
      snd (GetByAddress (valSet c) (Address msg)) = Some src ->
      handleMsg payload c = handleCheckedMsg msg src c).
Proof.
  split; [|split].
  - intros err H. exact (handleMsg_decode_error payload c err H).
  - intros msg H H0.
    rewrite (handleMsg_invalid_signer payload c msg H H0). repeat split.
  - intros msg src H H0. exact (handleMsg_checked payload c msg src H H0).
Qed.

(** C4, as the code has it.  When the handler of the message's code answers
    [errFutureMessage], [handleCheckedMsg] stores the message with its
    signer in the Backlog and returns [errFutureMessage] to its caller, and
    so does [handleMsg]; it is the event loop that drops the error. *)
Theorem handleCheckedMsg_future_message_is_stored_and_returned
    (msg : message) (src : Validator) (c : core) (h : handlerName) :
  handlerFor (Code msg) = Some h ->
  fst (handler_impl h msg src c) = Some errFutureMessage ->
  let c1 := snd (handler_impl h msg src c) in
  handleCheckedMsg msg src c =
    (Some errFutureMessage, storeBacklog_impl msg src c1,
     [call_handler h msg src; call_storeBacklog msg src])
  /\ dispatchEvent (backlogEvent msg src) c =
    (tt, storeBacklog_impl msg src c1,
     [call_handler h msg src; call_storeBacklog msg src])
  /\ (forall payload,
      FromPayload_impl payload c = inl msg ->
      snd (GetByAddress (valSet c) (Address msg)) = Some src ->
      handleMsg payload c =
        (Some errFutureMessage, storeBacklog_impl msg src c1,
         [call_handler h msg src; call_storeBacklog msg src])
      /\ dispatchEvent (MessageEvent payload) c =
        (tt, storeBacklog_impl msg src c1,
         [call_handler h msg src; call_storeBacklog msg src])).
Proof.
  intros Hh Hf c1.
  assert (E : handleCheckedMsg msg src c =
              (Some errFutureMessage, storeBacklog_impl msg src c1,
               [call_handler h msg src; call_storeBacklog msg src])).
  { rewrite (handleCheckedMsg_case msg src c h Hh). simpl. rewrite Hf. reflexivity. }
  assert (D : dispatchEvent (backlogEvent msg src) c =
              (tt, storeBacklog_impl msg src c1,
               [call_handler h msg src; call_storeBacklog msg src])).
  { unfold dispatchEvent. rewrite bind_run, E. reflexivity. }
  split; [exact E|]. split; [exact D|].
  intros payload Hp Hs.
  pose proof (handleMsg_checked payload c msg src Hp Hs) as Em.
  split.
  - rewrite Em. exact E.
  - unfold dispatchEvent. rewrite bind_run, Em, E. reflexivity.
Qed.

(** C5. A backlog event carrying a message and its signer is processed as
    the message event whose payload decodes to that message and whose
    sender resolves to that signer: from the same core, [handleMsg] is
    [handleCheckedMsg] on them, so the two events give the same result,
    the same core and the same calls, and the loop goes on alike. *)
Theorem backlog_replay_as_fresh_message
    (payload : list byte) (msg : message) (src : Validator) (c : core) :
  FromPayload_impl payload c = inl msg ->
  snd (GetByAddress (valSet c) (Address msg)) = Some src ->
  handleMsg payload c = handleCheckedMsg msg src c
  /\ dispatchEvent (MessageEvent payload) c = dispatchEvent (backlogEvent msg src) c
  /\ forall feed,
      handleEvents (fromEvents (Some (MessageEvent payload)) :: feed) c =
      handleEvents (fromEvents (Some (backlogEvent msg src)) :: feed) c.
Proof.
  intros Hp Hs.
  pose proof (handleMsg_checked payload c msg src Hp Hs) as Em.
  assert (Ed : dispatchEvent (MessageEvent payload) c = dispatchEvent (backlogEvent msg src) c).
  { unfold dispatchEvent. rewrite !bind_run, Em. reflexivity. }
  split; [exact Em|]. split; [exact Ed|].
  intros feed. cbn [handleEvents]. rewrite !bind_run, Ed. reflexivity.
Qed.

(** C6. [handleCheckedMsg] invokes exactly one handler, the one of the
    message's code, when the code is one of the seven; for any other code
    it invokes none, leaves the core as it was and returns
    [errInvalidMessage]. *)
Theorem handleCheckedMsg_dispatches_by_code (msg : message) (src : Validator) (c : core) :
  (forall h,
      handlerFor (Code msg) = Some h ->
      Code msg = MsgType h
      /\ handlerCalls (calls (handleCheckedMsg msg src c)) = [h]
      /\ result (handleCheckedMsg msg src c) = fst (handler_impl h msg src c))
  /\ ((exists h, Code msg = MsgType h) -> exists h, handlerFor (Code msg) = Some h)
  /\ ((forall h, Code msg <> MsgType h) ->
      handleCheckedMsg msg src c =
        (Some errInvalidMessage, c, [call_log LvlError "msg type invalid"])
      /\ handlerCalls (calls (handleCheckedMsg msg src c)) = []).
Proof.
  split; [|split].
  - intros h Hh. split; [exact (handlerFor_Some _ _ Hh)|].
    rewrite (handleCheckedMsg_case msg src c h Hh). simpl.
    destruct (isFutureMessage (fst (handler_impl h msg src c))); split; reflexivity.
  - intros [h Hh].
    destruct (handlerFor (Code msg)) as [h'|] eqn:E; [exists h'; reflexivity|].
    exfalso. exact (proj1 (handlerFor_None _) E h Hh).
  - intros Hn. apply handlerFor_None in Hn.
    rewrite (handleCheckedMsg_unknown msg src c Hn). split; reflexivity.
Qed.

Lemma handleEvents_open (s : selected) (rest : list selected) :
  closed s = false ->
  handleEvents (s :: rest) = (processOne s ;;; handleEvents rest).
Proof.
  destruct s as [[ev|]|[|]|[|]]; simpl; intros H; try discriminate H; reflexivity.
Qed.

Lemma handleEvents_closed (s : selected) (rest : list selected) (c : core) :
  closed s = true ->
  result (handleEvents (s :: rest) c) = Returned.
Proof.
  destruct s as [[ev|]|[|]|[|]]; simpl; intros H; try discriminate H; reflexivity.
Qed.

Lemma handleEvents_status (feed : list selected) : forall c : core,
  result (handleEvents feed c) = if existsb closed feed then Returned else Selecting.
Proof.
  induction feed as [|s rest IH]; intros c.
  - reflexivity.
  - cbn [existsb]. destruct (closed s) eqn:E.
    + apply handleEvents_closed. exact E.
    + rewrite (handleEvents_open s rest E), bind_run. cbn [result fst orb].
      apply IH.
Qed.

Lemma handleEvents_app (pre rest : list selected) : forall c : core,
  existsb closed pre = false ->
  handleEvents (pre ++ rest) c = (handleEvents pre ;;; handleEvents rest) c.
Proof.
  induction pre as [|s pre IH]; intros c H.
  - cbn [app handleEvents]. rewrite bind_run. cbn.
    apply run_eta.
  - cbn [existsb] in H. apply orb_false_iff in H. destruct H as [Hs Hpre].
    cbn [app]. rewrite !(handleEvents_open s _ Hs), !bind_run.
    rewrite (IH _ Hpre), !bind_run. cbn [result final calls fst snd].
    rewrite app_assoc. reflexivity.
Qed.

(** C7. [handleEvents] returns exactly when its [select] delivers from a
    closed channel.  Whatever a handler answers for an event, the loop
    goes on to the next outcome of the [select]: the error is never
    looked at. *)
Theorem handleEvents_returns_only_on_closed_channel (feed : list selected) (c : core) :
  (result (handleEvents feed c) = Returned <-> existsb closed feed = true)
  /\ (forall s rest,
      closed s = false ->
      handleEvents (s :: rest) c = (processOne s ;;; handleEvents rest) c)
  /\ (forall pre rest,
      existsb closed pre = false ->
      handleEvents (pre ++ rest) c = (handleEvents pre ;;; handleEvents rest) c
      /\ result (handleEvents pre c) = Selecting).
Proof.
  split; [|split].
  - rewrite handleEvents_status.
    destruct (existsb closed feed); split; intros H; try reflexivity; discriminate H.
  - intros s rest H. rewrite (handleEvents_open s rest H). reflexivity.
  - intros pre rest H. split.
    + apply handleEvents_app. exact H.
    + rewrite handleEvents_status, H. reflexivity.
Qed.

(** C8. [Stop] stops the timer, then unsubscribes the three subscriptions
    the core holds, and returns nil; and the three subscriptions that
    [subscribeEvents] takes out are the three that [unsubscribeEvents]
    then unsubscribes. *)
Theorem Stop_unsubscribes_every_subscription (c : core) :
  let c1 := stopTimer_impl c in
  result (Stop c) = None
  /\ calls (Stop c) =
     [call_stopTimer; call_Unsubscribe (events c1);
      call_Unsubscribe (timeoutSub c1); call_Unsubscribe (finalCommittedSub c1)]
  /\ backend (final (Stop c)) =
     Unsubscribe_impl (finalCommittedSub c1)
       (Unsubscribe_impl (timeoutSub c1) (Unsubscribe_impl (events c1) (backend c1)))
  /\ exists s1 s2 s3,
      calls (subscribeEvents c) =
        [call_Subscribe [TRequestEvent; TMessageEvent; TbacklogEvent] s1;
         call_Subscribe [TtimeoutEvent] s2;
         call_Subscribe [TFinalCommittedEvent] s3]
      /\ calls (unsubscribeEvents (final (subscribeEvents c))) =
        [call_Unsubscribe s1; call_Unsubscribe s2; call_Unsubscribe s3].
Proof.
  intros c1. repeat split.
  unfold_run. cbn.
  destruct (Subscribe_impl [TRequestEvent; TMessageEvent; TbacklogEvent] (backend c))
    as [s1 b1] eqn:E1. cbn.
  destruct (Subscribe_impl [TtimeoutEvent] b1) as [s2 b2] eqn:E2. cbn.
  destruct (Subscribe_impl [TFinalCommittedEvent] b2) as [s3 b3] eqn:E3. cbn.
  exists s1, s2, s3. split; reflexivity.
Qed.

End CoreFacts.

(** ** Properties of the core under the methods of the specification *)

Section SpecFacts.

Context {Proposal Validator Subscription Backend : Type}.
Local Abbreviation core := (core Proposal Validator Subscription Backend).
Local Abbreviation CoreMethods := (CoreMethods Proposal Validator Subscription Backend).
Local Abbreviation M := (M Proposal Validator Subscription Backend).
Local Abbreviation Call := (Call Proposal Validator Subscription).
Local Abbreviation selected := (selected Proposal Validator).
Variable codeOf : handlerName -> Z.
Variable decode : list byte -> core -> message + error.
Variable verdict : handlerName -> message -> Validator -> core -> goerror.
Variable muxSubscribe : list eventType -> Backend -> Subscription * Backend.
Variable muxUnsubscribe : Subscription -> Backend -> Backend.

Let SM : CoreMethods := specMethods codeOf decode verdict muxSubscribe muxUnsubscribe.

(** The current round of the core. *)
Definition currentRound (c : core) : Z := Round (current c).

Lemma spec_handler_round (h : handlerName) (msg : message) (src : Validator) (c : core) :
  currentRound (snd (spec_handler verdict h msg src c)) = currentRound c.
Proof.
  unfold spec_handler.
  destruct (Round (current c) <? MsgRound msg); [reflexivity|].
  destruct (MsgRound msg <? Round (current c)); [reflexivity|].
  destruct (verdict h msg src c); [reflexivity|].
  destruct (isVote h); reflexivity.
Qed.

Lemma spec_handleCheckedMsg_round (msg : message) (src : Validator) (c : core) :
  currentRound (final (handleCheckedMsg (CM:=SM) msg src c)) = currentRound c.
Proof.
  destruct (handlerFor (CM:=SM) (Code msg)) as [h|] eqn:E.
  - rewrite (handleCheckedMsg_case (CM:=SM) msg src c h E). cbv zeta.
    destruct (isFutureMessage _); cbn [final fst snd];
      [change (currentRound (storeBacklog_impl msg src ?x)) with (currentRound x)|];
      apply spec_handler_round.
  - rewrite (handleCheckedMsg_unknown (CM:=SM) msg src c E). reflexivity.
Qed.

Lemma spec_handleMsg_round (payload : list byte) (c : core) :
  currentRound (final (handleMsg (CM:=SM) payload c)) = currentRound c.
Proof.
  destruct (FromPayload_impl (CoreMethods:=SM) payload c) as [msg|err] eqn:E.
  - destruct (snd (GetByAddress (valSet c) (Address msg))) as [src|] eqn:G.
    + rewrite (handleMsg_checked (CM:=SM) payload c msg src E G).
      apply spec_handleCheckedMsg_round.
    + rewrite (handleMsg_invalid_signer (CM:=SM) payload c msg E G). reflexivity.
  - rewrite (handleMsg_decode_error (CM:=SM) payload c err E). reflexivity.
Qed.

Lemma spec_processOne_round (s : selected) (c : core) :
  currentRound (final (processOne (CM:=SM) s c)) = currentRound c
  \/ currentRound (final (processOne (CM:=SM) s c)) = currentRound c + 1.
Proof.
  destruct s as [[ev|]|[|]|[|]]; cbn [processOne]; try (left; reflexivity);
    try (right; reflexivity).
  destruct ev as [p|payload| |msg src|]; cbn [dispatchEvent]; try (left; reflexivity).
  - left. rewrite bind_run. cbn [final fst snd ret].
    apply spec_handleMsg_round.
  - left. rewrite bind_run. cbn [final fst snd ret].
    apply spec_handleCheckedMsg_round.
Qed.

(** C2. Under the methods of the specification every operation of the
    event loop (a request, a message, a backlog replay, a timeout, a final
    commit) leaves the current round as it was or raises it by one, and
    over any sequence of outcomes of the [select] the current round never
    decreases. *)
Theorem currentRound_never_decreases (feed : list selected) (c : core) :
  (forall s c0,
      currentRound (final (processOne (CM:=SM) s c0)) = currentRound c0
      \/ currentRound (final (processOne (CM:=SM) s c0)) = currentRound c0 + 1)
  /\ currentRound c <= currentRound (final (handleEvents (CM:=SM) feed c)).
Proof.
  split; [exact spec_processOne_round|].
  revert c. induction feed as [|s rest IH]; intros c.
  - cbn. lia.
  - destruct (closed s) eqn:E.
    + destruct s as [[ev|]|[|]|[|]]; try discriminate E; cbn; lia.
    + rewrite (handleEvents_open (CM:=SM) s rest E), bind_run. cbn [final fst snd].
      specialize (IH (final (processOne (CM:=SM) s c))).
      destruct (spec_processOne_round s c) as [H|H]; lia.
Qed.

End SpecFacts.

(** ** Deserialization assigns only after the last read *)

Section Atomicity.

Context {Source : Type} {R : SourceReader Source}.

(** C9. When [Deserialization] returns an error the receiver is as it was
    before the call, for each of the three parameter structs and whatever
    the source answers. *)
Theorem Deserialization_error_leaves_receiver :
  (forall (this : SyncGenesisHeaderParam.t) (source : Source) (e : string),
      errOf (SyncGenesisHeaderParam.Deserialization this source) = Some e ->
      receiverOf (SyncGenesisHeaderParam.Deserialization this source) = this)
  /\ (forall (this : SyncBlockHeaderParam.t) (source : Source) (e : string),
      errOf (SyncBlockHeaderParam.Deserialization this source) = Some e ->
      receiverOf (SyncBlockHeaderParam.Deserialization this source) = this)
  /\ (forall (this : SyncCrossChainMsgParam.t) (source : Source) (e : string),
      errOf (SyncCrossChainMsgParam.Deserialization this source) = Some e ->
      receiverOf (SyncCrossChainMsgParam.Deserialization this source) = this).
Proof.
  unfold errOf, receiverOf.
  split; [|split]; intros this source e.
  - unfold SyncGenesisHeaderParam.Deserialization.
    destruct (NextUint64 source) as [[chainID [|]] s1]; cbn; [reflexivity|].
    destruct (NextVarBytes s1) as [[g [|]] s2]; cbn; [reflexivity|].
    discriminate.
  - unfold SyncBlockHeaderParam.Deserialization.
    destruct (NextUint64 source) as [[chainID [|]] s1]; cbn; [reflexivity|].
    destruct (NextAddress s1) as [[a [|]] s2]; cbn; [reflexivity|].
    destruct (NextUint64 s2) as [[n [|]] s3]; cbn; [reflexivity|].
    destruct (nextVarBytesLoop (Z.to_nat n) [] s3) as [[hs|] s4]; cbn; [discriminate|reflexivity].
  - unfold SyncCrossChainMsgParam.Deserialization.
    destruct (NextUint64 source) as [[chainID [|]] s1]; cbn; [reflexivity|].
    destruct (NextAddress s1) as [[a [|]] s2]; cbn; [reflexivity|].
    destruct (NextUint64 s2) as [[n [|]] s3]; cbn; [reflexivity|].
    destruct (nextVarBytesLoop (Z.to_nat n) [] s3) as [[hs|] s4]; cbn; [discriminate|reflexivity].
Qed.

End Atomicity.

(** ** Reading back what was written *)

Section RoundTrip.

Import polycomm.

Lemma Z_of_byte_range (b : byte) : 0 <= Z_of_byte b < 256.
Proof.
  unfold Z_of_byte. pose proof (Byte.to_N_bounded b) as H. lia.
Qed.

Lemma Z_of_byte_of_Z (z : Z) : Z_of_byte (byte_of_Z z) = z mod 256.
Proof.
  unfold Z_of_byte, byte_of_Z.
  pose proof (Z.mod_pos_bound z 256 ltac:(lia)) as Hm.
  destruct (Byte.of_N (Z.to_N (z mod 256))) as [b|] eqn:E.
  - apply Byte.to_of_N in E. rewrite E. lia.
  - apply Byte.of_N_None_iff in E. lia.
Qed.

Lemma byte_of_Z_of_byte (b : byte) : byte_of_Z (Z_of_byte b) = b.
Proof.
  unfold byte_of_Z. pose proof (Z_of_byte_range b) as H.
  rewrite Z.mod_small by exact H.
  unfold Z_of_byte. rewrite N2Z.id, Byte.of_to_N. reflexivity.
Qed.

Lemma le_encode_length (n : nat) : forall v, List.length (le_encode n v) = n.
Proof.
  induction n as [|n IH]; intros v; cbn; [reflexivity|]. rewrite IH. reflexivity.
Qed.

Lemma le_decode_encode (n : nat) : forall v,
  0 <= v < 256 ^ Z.of_nat n -> le_decode (le_encode n v) = v.
Proof.
  induction n as [|n IH]; intros v Hv.
  - cbn in *. lia.
  - cbn [le_encode le_decode]. rewrite Z_of_byte_of_Z.
    rewrite Nat2Z.inj_succ, Z.pow_succ_r in Hv by lia.
    rewrite IH.
    + pose proof (Z.div_mod v 256 ltac:(lia)). lia.
    + split; [apply Z.div_pos; lia|].
      apply Z.div_lt_upper_bound; lia.
Qed.


(** The bytes a write appends. *)
Definition varUintBytes (v : Z) : list byte := buf (WriteVarUint v NewZeroCopySink).
Definition varBytesBytes (d : list byte) : list byte :=
  varUintBytes (Z.of_nat (List.length d)) ++ d.

Lemma WriteVarUint_buf (v : Z) (k : ZeroCopySink) :
  buf (WriteVarUint v k) = buf k ++ varUintBytes v.
Proof.
  unfold varUintBytes, WriteVarUint, WriteBytes.
  destruct (v <? 253); [reflexivity|].
  destruct (v <=? 65535); [reflexivity|].
  destruct (v <=? 4294967295); reflexivity.
Qed.

Lemma WriteVarBytes_buf (d : list byte) (k : ZeroCopySink) :
  buf (sink_WriteVarBytes d k) = buf k ++ varBytesBytes d.
Proof.
  unfold sink_WriteVarBytes, WriteBytes, varBytesBytes. cbn [buf].
  rewrite WriteVarUint_buf, app_assoc. reflexivity.
Qed.

Lemma writeVarBytesRange_buf (l : list (list byte)) : forall k : ZeroCopySink,
  buf (writeVarBytesRange l k) = buf k ++ concat (map varBytesBytes l).
Proof.
  induction l as [|d l IH]; intros k; cbn [writeVarBytesRange map concat].
  - rewrite app_nil_r. reflexivity.
  - rewrite IH. cbn [WriteVarBytes sinkWriter]. rewrite WriteVarBytes_buf, app_assoc.
    reflexivity.
Qed.

(** The source has read [pre] and has [rest] ahead; its bytes fit a Go
    slice. *)
Definition positioned (src : ZeroCopySource) (pre rest : list byte) : Prop :=
  s src = pre ++ rest
  /\ off src = Z.of_nat (List.length pre)
  /\ Z.of_nat (List.length (s src)) < 2 ^ 64.

Lemma positioned_new (b : list byte) :
  Z.of_nat (List.length b) < 2 ^ 64 -> positioned (NewZeroCopySource b) [] b.
Proof.
  intros H. unfold positioned, NewZeroCopySource. cbn. auto.
Qed.

Lemma NextBytes_positioned (src : ZeroCopySource) (pre d rest : list byte) :
  positioned src pre (d ++ rest) ->
  exists src',
    NextBytes (Z.of_nat (List.length d)) src = (d, false, src')
    /\ positioned src' (pre ++ d) rest.
Proof.
  intros (Hs & Ho & Hl).
  exists {| s := s src; off := off src + Z.of_nat (List.length d) |}.
  assert (Hlen : List.length (s src) = (List.length pre + List.length d + List.length rest)%nat).
  { rewrite Hs, !length_app. lia. }
  split.
  - unfold NextBytes, SafeAdd.
    rewrite Z.mod_small by lia.
    replace (off src + Z.of_nat (List.length d) <? off src) with false
      by (symmetry; apply Z.ltb_ge; lia).
    replace (Z.of_nat (List.length (s src)) <? off src + Z.of_nat (List.length d)) with false
      by (symmetry; apply Z.ltb_ge; lia).
    cbn [orb]. f_equal. f_equal.
    unfold slice. rewrite Ho, Nat2Z.id.
    replace (Z.to_nat (Z.of_nat (List.length pre) + Z.of_nat (List.length d) - Z.of_nat (List.length pre)))
      with (List.length d) by lia.
    rewrite Hs, skipn_app, skipn_all, Nat.sub_diag. cbn [skipn app].
    rewrite firstn_app, firstn_all, Nat.sub_diag. cbn [firstn]. apply app_nil_r.
  - unfold positioned. cbn [s off]. repeat split.
    + rewrite Hs, app_assoc. reflexivity.
    + rewrite Ho, length_app. lia.
    + exact Hl.
Qed.

Lemma NextByte_positioned (src : ZeroCopySource) (pre rest : list byte) (b : byte) :
  positioned src pre (b :: rest) ->
  exists src',
    NextByte src = (b, false, src') /\ positioned src' (pre ++ [b]) rest.
Proof.
  intros (Hs & Ho & Hl).
  exists {| s := s src; off := off src + 1 |}.
  assert (Hlen : List.length (s src) = (List.length pre + S (List.length rest))%nat).
  { rewrite Hs, length_app. reflexivity. }
  split.
  - unfold NextByte.
    replace (Z.of_nat (List.length (s src)) <=? off src) with false
      by (symmetry; apply Z.leb_gt; lia).
    f_equal. f_equal. rewrite Ho, Nat2Z.id, Hs. apply nth_middle.
  - unfold positioned. cbn [s off]. repeat split.
    + rewrite Hs, <- app_assoc. reflexivity.
    + rewrite Ho, length_app. cbn. lia.
    + exact Hl.
Qed.

Lemma NextUint_positioned (n : nat) (v : Z) (src : ZeroCopySource) (pre rest : list byte) :
  0 <= v < 256 ^ Z.of_nat n ->
  positioned src pre (le_encode n v ++ rest) ->
  exists src',
    NextUint (Z.of_nat n) src = (v, false, src')
    /\ positioned src' (pre ++ le_encode n v) rest.
Proof.
  intros Hv Hp.
  destruct (NextBytes_positioned src pre (le_encode n v) rest Hp) as (src' & E & Hp').
  rewrite le_encode_length in E.
  exists src'. split; [|exact Hp'].
  unfold NextUint. rewrite E, le_decode_encode by exact Hv. reflexivity.
Qed.

Lemma NextVarUint_positioned (v : Z) (src : ZeroCopySource) (pre rest : list byte) :
  0 <= v < 2 ^ 64 ->
  positioned src pre (varUintBytes v ++ rest) ->
  exists src',
    NextVarUint src = (v, false, src') /\ positioned src' (pre ++ varUintBytes v) rest.
Proof.
  intros Hv. unfold varUintBytes, WriteVarUint, WriteBytes, NewZeroCopySink. cbn [buf app].
  destruct (Z.ltb_spec v 253) as [H1|H1]; cbn [buf app].
  - intros Hp.
    destruct (NextByte_positioned src pre rest _ Hp) as (src' & E & Hp').
    exists src'. split; [|exact Hp'].
    unfold NextVarUint. rewrite E, Z_of_byte_of_Z, Z.mod_small by lia.
    replace (v =? 253) with false by (symmetry; apply Z.eqb_neq; lia).
    replace (v =? 254) with false by (symmetry; apply Z.eqb_neq; lia).
    replace (v =? 255) with false by (symmetry; apply Z.eqb_neq; lia).
    reflexivity.
  - destruct (Z.leb_spec v 65535) as [H2|H2]; cbn [buf app];
      [|destruct (Z.leb_spec v 4294967295) as [H3|H3]; cbn [buf app]];
      intros Hp;
      destruct (NextByte_positioned src pre _ _ Hp) as (src1 & E1 & Hp1).
    + destruct (NextUint_positioned 2 v src1 _ rest ltac:(cbn; lia) Hp1) as (src' & E & Hp').
      exists src'. split; [|rewrite <- app_assoc in Hp'; exact Hp'].
      unfold NextVarUint. rewrite E1. cbn -[NextUint]. exact E.
    + destruct (NextUint_positioned 4 v src1 _ rest ltac:(cbn; lia) Hp1) as (src' & E & Hp').
      exists src'. split; [|rewrite <- app_assoc in Hp'; exact Hp'].
      unfold NextVarUint. rewrite E1. cbn -[NextUint]. exact E.
    + destruct (NextUint_positioned 8 v src1 _ rest ltac:(cbn; lia) Hp1) as (src' & E & Hp').
      exists src'. split; [|rewrite <- app_assoc in Hp'; exact Hp'].
      unfold NextVarUint. rewrite E1. cbn -[NextUint]. exact E.
Qed.

Lemma positioned_item_bound (src : ZeroCopySource) (pre d rest : list byte) :
  positioned src pre (varBytesBytes d ++ rest) ->
  0 <= Z.of_nat (List.length d) < 2 ^ 64.
Proof.
  intros (Hs & _ & Hl). rewrite Hs in Hl. unfold varBytesBytes in Hl.
  rewrite !length_app in Hl. lia.
Qed.

Lemma NextVarBytes_positioned (d : list byte) (src : ZeroCopySource) (pre rest : list byte) :
  positioned src pre (varBytesBytes d ++ rest) ->
  exists src',
    source_NextVarBytes src = (d, false, src')
    /\ positioned src' (pre ++ varBytesBytes d) rest.
Proof.
  intros Hp. pose proof (positioned_item_bound _ _ _ _ Hp) as Hd.
  unfold varBytesBytes in *. rewrite <- app_assoc in Hp.
  destruct (NextVarUint_positioned _ src pre _ Hd Hp) as (src1 & E1 & Hp1).
  destruct (NextBytes_positioned src1 _ d rest Hp1) as (src' & E & Hp').
  exists src'. split; [|rewrite <- app_assoc in Hp'; exact Hp'].
  unfold source_NextVarBytes. rewrite E1. exact E.
Qed.

Lemma NextAddress_positioned (a : address) (src : ZeroCopySource) (pre rest : list byte) :
  Z.of_nat (List.length a) = AddressLength ->
  positioned src pre (a ++ rest) ->
  exists src',
    source_NextAddress src = (a, false, src') /\ positioned src' (pre ++ a) rest.
Proof.
  intros Ha Hp.
  destruct (NextBytes_positioned src pre a rest Hp) as (src' & E & Hp').
  exists src'. split; [|exact Hp'].
  unfold source_NextAddress, ADDR_LEN. unfold AddressLength in Ha.
  rewrite <- Ha, E. reflexivity.
Qed.

Lemma NextUint64_positioned (v : Z) (src : ZeroCopySource) (pre rest : list byte) :
  0 <= v < 2 ^ 64 ->
  positioned src pre (le_encode 8 v ++ rest) ->
  exists src',
    source_NextUint64 src = (v, false, src') /\ positioned src' (pre ++ le_encode 8 v) rest.
Proof.
  intros Hv Hp. exact (NextUint_positioned 8 v src pre rest Hv Hp).
Qed.

Lemma nextVarBytesLoop_positioned (l : list (list byte)) :
  forall (items : list (list byte)) (src : ZeroCopySource) (pre rest : list byte),
  positioned src pre (concat (map varBytesBytes l) ++ rest) ->
  exists src',
    nextVarBytesLoop (List.length l) items src = (Some (items ++ l), src')
    /\ positioned src' (pre ++ concat (map varBytesBytes l)) rest.
Proof.
  induction l as [|d l IH]; intros items src pre rest Hp.
  - exists src. cbn in *. rewrite !app_nil_r. auto.
  - cbn [map concat] in Hp. rewrite <- app_assoc in Hp.
    destruct (NextVarBytes_positioned d src pre _ Hp) as (src1 & E1 & Hp1).
    destruct (IH (items ++ [d]) src1 _ rest Hp1) as (src' & E & Hp').
    exists src'. split.
    + cbn [List.length nextVarBytesLoop NextVarBytes sourceReader].
      rewrite E1, E, <- app_assoc. reflexivity.
    + cbn [map concat]. rewrite app_assoc. exact Hp'.
Qed.

Lemma varUintBytes_nonempty (v : Z) : (1 <= List.length (varUintBytes v))%nat.
Proof.
  unfold varUintBytes, WriteVarUint.
  destruct (v <? 253); [cbn; lia|].
  destruct (v <=? 65535); [cbn; lia|].
  destruct (v <=? 4294967295); cbn; lia.
Qed.

Lemma items_le_bytes (l : list (list byte)) :
  (List.length l <= List.length (concat (map varBytesBytes l)))%nat.
Proof.
  induction l as [|d l IH]; cbn [map concat List.length]; [lia|].
  rewrite length_app. unfold varBytesBytes at 1. rewrite length_app.
  pose proof (varUintBytes_nonempty (Z.of_nat (List.length d))). lia.
Qed.

(** The bytes each [Serialization] writes into an empty sink. *)
Lemma SyncGenesisHeaderParam_bytes (p : SyncGenesisHeaderParam.t) :
  Bytes (SyncGenesisHeaderParam.Serialization p NewZeroCopySink) =
  le_encode 8 (SyncGenesisHeaderParam.ChainID p)
  ++ varBytesBytes (SyncGenesisHeaderParam.GenesisHeader p).
Proof.
  unfold Bytes, SyncGenesisHeaderParam.Serialization.
  cbn [WriteUint64 WriteVarBytes sinkWriter].
  rewrite WriteVarBytes_buf. reflexivity.
Qed.

Lemma SyncBlockHeaderParam_bytes (p : SyncBlockHeaderParam.t) :
  Bytes (SyncBlockHeaderParam.Serialization p NewZeroCopySink) =
  le_encode 8 (SyncBlockHeaderParam.ChainID p)
  ++ SyncBlockHeaderParam.Address p
  ++ le_encode 8 (Z.of_nat (List.length (SyncBlockHeaderParam.Headers p)))
  ++ concat (map varBytesBytes (SyncBlockHeaderParam.Headers p)).
Proof.
  unfold Bytes, SyncBlockHeaderParam.Serialization.
  cbn [WriteUint64 WriteAddress sinkWriter].
  rewrite writeVarBytesRange_buf.
  unfold sink_WriteUint64, sink_WriteAddress, WriteBytes, NewZeroCopySink. cbn [buf app].
  rewrite <- !app_assoc. reflexivity.
Qed.

Lemma SyncCrossChainMsgParam_bytes (p : SyncCrossChainMsgParam.t) :
  Bytes (SyncCrossChainMsgParam.Serialization p NewZeroCopySink) =
  le_encode 8 (SyncCrossChainMsgParam.ChainID p)
  ++ SyncCrossChainMsgParam.Address p
  ++ le_encode 8 (Z.of_nat (List.length (SyncCrossChainMsgParam.CrossChainMsgs p)))
  ++ concat (map varBytesBytes (SyncCrossChainMsgParam.CrossChainMsgs p)).
Proof.
  unfold Bytes, SyncCrossChainMsgParam.Serialization.
  cbn [WriteUint64 WriteAddress sinkWriter].
  rewrite writeVarBytesRange_buf.
  unfold sink_WriteUint64, sink_WriteAddress, WriteBytes, NewZeroCopySink. cbn [buf app].
  rewrite <- !app_assoc. reflexivity.
Qed.

(** Reading a chain id, an address, a count and that many byte strings
    back, as the two list-carrying structs do. *)
Lemma read_back_list (chainID : Z) (addr : address) (l : list (list byte)) (bytes : list byte) :
  bytes = le_encode 8 chainID ++ addr ++ le_encode 8 (Z.of_nat (List.length l))
          ++ concat (map varBytesBytes l) ->
  0 <= chainID < 2 ^ 64 ->
  Z.of_nat (List.length addr) = AddressLength ->
  Z.of_nat (List.length bytes) < 2 ^ 64 ->
  exists s1 s2 s3 s4,
    source_NextUint64 (NewZeroCopySource bytes) = (chainID, false, s1)
    /\ source_NextAddress s1 = (addr, false, s2)
    /\ source_NextUint64 s2 = (Z.of_nat (List.length l), false, s3)
    /\ nextVarBytesLoop (Z.to_nat (Z.of_nat (List.length l))) [] s3 = (Some l, s4).
Proof.
  intros Hb Hc Ha Hl.
  assert (Hn : 0 <= Z.of_nat (List.length l) < 2 ^ 64).
  { split; [lia|]. rewrite Hb, !length_app in Hl.
    pose proof (items_le_bytes l). lia. }
  pose proof (positioned_new bytes Hl) as Hp. rewrite Hb in Hp at 2.
  rewrite <- (app_nil_r (concat _)) in Hp.
  destruct (NextUint64_positioned _ _ _ _ Hc Hp) as (s1 & E1 & Hp1).
  destruct (NextAddress_positioned _ _ _ _ Ha Hp1) as (s2 & E2 & Hp2).
  destruct (NextUint64_positioned _ _ _ _ Hn Hp2) as (s3 & E3 & Hp3).
  destruct (nextVarBytesLoop_positioned l [] _ _ _ Hp3) as (s4 & E4 & Hp4).
  exists s1, s2, s3, s4. rewrite Nat2Z.id. auto.
Qed.

(** C10. For each of the three parameter structs, [Deserialization] on a
    source over exactly the bytes that [Serialization] wrote returns nil
    and leaves in the receiver the value that was written: the chain id,
    the address and the byte strings, element for element.  The chain id
    is a uint64, an address has 20 bytes and the bytes written fit a Go
    slice. *)
Theorem Deserialization_of_Serialization :
  (forall (p this : SyncGenesisHeaderParam.t),
      let bytes := Bytes (SyncGenesisHeaderParam.Serialization p NewZeroCopySink) in
      0 <= SyncGenesisHeaderParam.ChainID p < 2 ^ 64 ->
      Z.of_nat (List.length bytes) < 2 ^ 64 ->
      errOf (SyncGenesisHeaderParam.Deserialization this (NewZeroCopySource bytes)) = None
      /\ receiverOf (SyncGenesisHeaderParam.Deserialization this (NewZeroCopySource bytes)) = p)
  /\ (forall (p this : SyncBlockHeaderParam.t),
      let bytes := Bytes (SyncBlockHeaderParam.Serialization p NewZeroCopySink) in
      0 <= SyncBlockHeaderParam.ChainID p < 2 ^ 64 ->
      Z.of_nat (List.length (SyncBlockHeaderParam.Address p)) = AddressLength ->
      Z.of_nat (List.length bytes) < 2 ^ 64 ->
      errOf (SyncBlockHeaderParam.Deserialization this (NewZeroCopySource bytes)) = None
      /\ receiverOf (SyncBlockHeaderParam.Deserialization this (NewZeroCopySource bytes)) = p)
  /\ (forall (p this : SyncCrossChainMsgParam.t),
      let bytes := Bytes (SyncCrossChainMsgParam.Serialization p NewZeroCopySink) in
      0 <= SyncCrossChainMsgParam.ChainID p < 2 ^ 64 ->
      Z.of_nat (List.length (SyncCrossChainMsgParam.Address p)) = AddressLength ->
      Z.of_nat (List.length bytes) < 2 ^ 64 ->
      errOf (SyncCrossChainMsgParam.Deserialization this (NewZeroCopySource bytes)) = None
      /\ receiverOf (SyncCrossChainMsgParam.Deserialization this (NewZeroCopySource bytes)) = p).
Proof.
  split; [|split].
  - intros p this bytes Hc Hl.
    pose proof (SyncGenesisHeaderParam_bytes p) as Hb. fold bytes in Hb.
    pose proof (positioned_new bytes Hl) as Hp. rewrite Hb in Hp at 2.
    rewrite <- (app_nil_r (varBytesBytes _)) in Hp.
    destruct (NextUint64_positioned _ _ _ _ Hc Hp) as (s1 & E1 & Hp1).
    destruct (NextVarBytes_positioned _ _ _ _ Hp1) as (s2 & E2 & Hp2).
    unfold errOf, receiverOf, SyncGenesisHeaderParam.Deserialization.
    cbn [NextUint64 NextVarBytes sourceReader]. rewrite E1, E2.
    destruct p; split; reflexivity.
  - intros p this bytes Hc Ha Hl.
    pose proof (SyncBlockHeaderParam_bytes p) as Hb. fold bytes in Hb.
    destruct (read_back_list _ _ _ _ Hb Hc Ha Hl) as (s1 & s2 & s3 & s4 & E1 & E2 & E3 & E4).
    unfold errOf, receiverOf, SyncBlockHeaderParam.Deserialization.
    cbn [NextUint64 NextAddress sourceReader]. rewrite E1, E2, E3, E4.
    destruct p; split; reflexivity.
  - intros p this bytes Hc Ha Hl.
    pose proof (SyncCrossChainMsgParam_bytes p) as Hb. fold bytes in Hb.
    destruct (read_back_list _ _ _ _ Hb Hc Ha Hl) as (s1 & s2 & s3 & s4 & E1 & E2 & E3 & E4).
    unfold errOf, receiverOf, SyncCrossChainMsgParam.Deserialization.
    cbn [NextUint64 NextAddress sourceReader]. rewrite E1, E2, E3, E4.
    destruct p; split; reflexivity.
Qed.

End RoundTrip.


(* ================================================================== *)
(** * The properties at the concrete core *)
(* ================================================================== *)

Section Concrete.

Import polycomm.
Import Demo.

Local Existing Instance methods.

(** The wire format at work. *)
Example genesis7_bytes :
  Bytes (SyncGenesisHeaderParam.Serialization genesis7 NewZeroCopySink) =
  [x07; x00; x00; x00; x00; x00; x00; x00; x03; x0a; x0b; x0c].
Proof. reflexivity. Qed.

Example varUint_253 : varUintBytes 253 = [xfd; xfd; x00].
Proof. reflexivity. Qed.

Example varUint_65536 : varUintBytes 65536 = [xfe; x00; x00; x01; x00].
Proof. reflexivity. Qed.

Example genesis_short_source :
  SyncGenesisHeaderParam.Deserialization genesis0
    (NewZeroCopySource [x07; x00; x00; x00; x00; x00; x00; x00; x03; x0a]) =
  (Some "utils.DecodeVarBytes, deserialize genesisHeader count error"%string,
   genesis0,
   {| s := [x07; x00; x00; x00; x00; x00; x00; x00; x03; x0a]; off := 10 |}).
Proof. reflexivity. Qed.

Example headers_truncated_error :
  errOf (SyncBlockHeaderParam.Deserialization headers0 (NewZeroCopySource headers7Truncated)) =
  Some "utils.DecodeVarBytes, deserialize header error"%string.
Proof. reflexivity. Qed.

(** The core of round 3 in phase PreCommit, after a timeout and after a
    final commit, under the methods of the specification. *)
Example timeout_at_PreCommit :
  current (final (handleEvents [fromTimeoutSub true] core3)) =
  {| round := 4; state := NewView |}.
Proof. reflexivity. Qed.

Example final_commit_then_timeout :
  current (final (handleEvents [fromFinalCommittedSub true; fromTimeoutSub true] core3)) =
  {| round := 5; state := NewView |}.
Proof. reflexivity. Qed.

(** A message of round 5 is kept while the core is in round 3 and leaves
    the Backlog when round 5 starts. *)
Example future_message_kept_then_drained :
  backlogs (final (handleEvents [fromEvents (Some (MessageEvent payloadNewView5))] core3)) =
    [(newView5, validator1)]
  /\ backlogs (final (handleEvents
                        [fromEvents (Some (MessageEvent payloadNewView5));
                         fromTimeoutSub true; fromTimeoutSub true] core3)) = [].
Proof. split; reflexivity. Qed.

(** [handleMsg] on a payload too short to decode, on a payload from an
    unknown address, and on a well-formed payload of validator 1. *)
Lemma handleMsg_decodes_then_resolves_signer_witness :
  handleMsg payloadShort core3 =
    (Some (errOther "short payload"), core3,
     [call_log LvlError "Failed to decode message from payload"])
  /\ handleMsg payloadStranger core3 =
    (Some errInvalidSigner, core3, [call_log LvlError "Invalid address in message"])
  /\ handleMsg payloadPrepare3 core3 = handleCheckedMsg prepare3 validator1 core3.
Proof.
  split; [|split].
  - exact (proj1 (handleMsg_decodes_then_resolves_signer payloadShort core3)
             (errOther "short payload") eq_refl).
  - exact (proj1 (proj1 (proj2 (handleMsg_decodes_then_resolves_signer payloadStranger core3))
                    {| Code := 2; Address := [x02]; MsgRound := 3; Msg := []; Signature := [] |}
                    eq_refl eq_refl)).
  - exact (proj2 (proj2 (handleMsg_decodes_then_resolves_signer payloadPrepare3 core3))
             prepare3 validator1 eq_refl eq_refl).
Defined.

(** A NewView message of round 5 reaches the core in round 3: the handler
    answers [errFutureMessage], and [handleCheckedMsg] and [handleMsg]
    return that error to their callers; the result is not nil. *)
Lemma handleCheckedMsg_future_message_returns_the_error :
  fst (handler_impl HNewView newView5 validator1 core3) = Some errFutureMessage
  /\ result (handleCheckedMsg newView5 validator1 core3) = Some errFutureMessage
  /\ result (handleMsg payloadNewView5 core3) = Some errFutureMessage
  /\ result (handleCheckedMsg newView5 validator1 core3) <> None.
Proof.
  repeat split. discriminate.
Qed.

(** The same message, as the amended property has it: stored with its
    signer, and the error returned. *)
Lemma handleCheckedMsg_future_message_witness :
  handleCheckedMsg newView5 validator1 core3 =
    (Some errFutureMessage,
     set_backlogs [(newView5, validator1)] core3,
     [call_handler HNewView newView5 validator1; call_storeBacklog newView5 validator1]).
Proof.
  exact (proj1 (handleCheckedMsg_future_message_is_stored_and_returned
                  newView5 validator1 core3 HNewView eq_refl eq_refl)).
Defined.

(** A Prepare message of the current round: the message event and the
    backlog event go the same way. *)
Lemma backlog_replay_as_fresh_message_witness :
  handleMsg payloadPrepare3 core3 = handleCheckedMsg prepare3 validator1 core3
  /\ dispatchEvent (MessageEvent payloadPrepare3) core3 =
     dispatchEvent (backlogEvent prepare3 validator1) core3.
Proof.
  pose (w := backlog_replay_as_fresh_message payloadPrepare3 prepare3 validator1 core3
               eq_refl eq_refl).
  exact (conj (proj1 w) (proj1 (proj2 w))).
Defined.

(** Code 2 goes to the Prepare handler and to no other; code 9 goes to
    none. *)
Lemma handleCheckedMsg_dispatches_by_code_witness :
  handlerCalls (calls (handleCheckedMsg prepare3 validator1 core3)) = [HPrepare]
  /\ handleCheckedMsg unknown3 validator1 core3 =
     (Some errInvalidMessage, core3, [call_log LvlError "msg type invalid"]).
Proof.
  split.
  - exact (proj1 (proj2 (proj1 (handleCheckedMsg_dispatches_by_code prepare3 validator1 core3)
                           HPrepare eq_refl))).
  - refine (proj1 (proj2 (proj2 (handleCheckedMsg_dispatches_by_code unknown3 validator1 core3))
                     _)).
    intros h; destruct h; discriminate.
Defined.

(** Two rejected messages, then a timeout, then the events channel is
    closed: the loop handled the first three and returned at the fourth
    outcome. *)
Lemma handleEvents_returns_only_on_closed_channel_witness :
  result (handleEvents
            [fromEvents (Some (MessageEvent payloadShort));
             fromEvents (Some (MessageEvent payloadStranger));
             fromTimeoutSub true;
             fromEvents None;
             fromTimeoutSub true] core3) = Returned
  /\ result (handleEvents
               [fromEvents (Some (MessageEvent payloadShort));
                fromEvents (Some (MessageEvent payloadStranger))] core3) = Selecting.
Proof.
  split.
  - exact (proj2 (proj1 (handleEvents_returns_only_on_closed_channel
                           [fromEvents (Some (MessageEvent payloadShort));
                            fromEvents (Some (MessageEvent payloadStranger));
                            fromTimeoutSub true;
                            fromEvents None;
                            fromTimeoutSub true] core3)) eq_refl).
  - exact (proj2 (proj2 (proj2 (handleEvents_returns_only_on_closed_channel [] core3))
                    [fromEvents (Some (MessageEvent payloadShort));
                     fromEvents (Some (MessageEvent payloadStranger))]
                    [] eq_refl)).
Defined.

(** A source of one byte, and the bytes of [headers7] cut short by one:
    [Deserialization] fails, at its first read or in the loop, and leaves
    the receiver as it was. *)
Lemma Deserialization_error_leaves_receiver_witness :
  receiverOf (SyncGenesisHeaderParam.Deserialization genesis7 (NewZeroCopySource [x01]))
    = genesis7
  /\ receiverOf (SyncBlockHeaderParam.Deserialization headers0
                   (NewZeroCopySource headers7Truncated)) = headers0
  /\ receiverOf (SyncCrossChainMsgParam.Deserialization msgs7 (NewZeroCopySource [x01]))
    = msgs7.
Proof.
  pose (w := @Deserialization_error_leaves_receiver ZeroCopySource sourceReader).
  split; [|split].
  - exact (proj1 w genesis7 (NewZeroCopySource [x01]) _ eq_refl).
  - exact (proj1 (proj2 w) headers0 (NewZeroCopySource headers7Truncated) _ eq_refl).
  - exact (proj2 (proj2 w) msgs7 (NewZeroCopySource [x01]) _ eq_refl).
Defined.

(** The three values of chain 7 come back from their bytes, into receivers
    that held other values. *)
Lemma Deserialization_of_Serialization_witness :
  receiverOf (SyncGenesisHeaderParam.Deserialization genesis0
                (NewZeroCopySource (Bytes (SyncGenesisHeaderParam.Serialization genesis7
                                             NewZeroCopySink)))) = genesis7
  /\ receiverOf (SyncBlockHeaderParam.Deserialization headers0
                   (NewZeroCopySource (Bytes (SyncBlockHeaderParam.Serialization headers7
                                                NewZeroCopySink)))) = headers7
  /\ receiverOf (SyncCrossChainMsgParam.Deserialization msgs0
                   (NewZeroCopySource (Bytes (SyncCrossChainMsgParam.Serialization msgs7
                                                NewZeroCopySink)))) = msgs7.
Proof.
  pose (w := Deserialization_of_Serialization).
  split; [|split].
  - refine (proj2 (proj1 w genesis7 genesis0 _ _)); [cbn; lia | reflexivity].
  - refine (proj2 (proj1 (proj2 w) headers7 headers0 _ _ _));
      [cbn; lia | reflexivity | reflexivity].
  - refine (proj2 (proj2 (proj2 w) msgs7 msgs0 _ _ _));
      [cbn; lia | reflexivity | reflexivity].
Defined.

End Concrete.

(* ================================================================== *)
(** * Further properties of handler.go *)
(* ================================================================== *)

Section LoopFacts.

Context {Proposal Validator Subscription Backend : Type}.
Local Abbreviation core := (core Proposal Validator Subscription Backend).
Local Abbreviation CoreMethods := (CoreMethods Proposal Validator Subscription Backend).
Local Abbreviation M := (M Proposal Validator Subscription Backend).
Local Abbreviation Call := (Call Proposal Validator Subscription).
Local Abbreviation selected := (selected Proposal Validator).
Context {CM : CoreMethods}.
Local Open Scope core_scope.

Lemma handleCheckedMsg_calls (msg : message) (src : Validator) (c : core) :
  checkedCalls msg src (calls (handleCheckedMsg msg src c)).
Proof.
  unfold checkedCalls.
  destruct (handlerFor (Code msg)) as [h|] eqn:E.
  - rewrite (handleCheckedMsg_case msg src c h E). cbv zeta.
    destruct (isFutureMessage _); [right; left | left]; exists h; reflexivity.
  - rewrite (handleCheckedMsg_unknown msg src c E). right; right; reflexivity.
Qed.

Lemma handleMsg_calls (payload : list byte) (c : core) :
  calls (handleMsg payload c) = [call_log LvlError "Failed to decode message from payload"]
  \/ calls (handleMsg payload c) = [call_log LvlError "Invalid address in message"]
  \/ exists msg src, checkedCalls msg src (calls (handleMsg payload c)).
Proof.
  destruct (FromPayload_impl payload c) as [msg|err] eqn:E.
  - destruct (snd (GetByAddress (valSet c) (Address msg))) as [src|] eqn:G.
    + right; right. exists msg, src.
      rewrite (handleMsg_checked payload c msg src E G). apply handleCheckedMsg_calls.
    + right; left. rewrite (handleMsg_invalid_signer payload c msg E G). reflexivity.
  - left. rewrite (handleMsg_decode_error payload c err E). reflexivity.
Qed.

Lemma processOne_calls (s : selected) (c : core) :
  stepCalls s c (calls (processOne s c)).
Proof.
  destruct s as [[ev|]|[|]|[|]]; cbn [stepCalls processOne]; try reflexivity.
  destruct ev as [p|payload| |msg src|]; cbn [dispatchEvent]; try reflexivity.
  - rewrite bind_run. cbn [calls snd ret]. rewrite app_nil_r.
    unfold handleRequest, calls. destruct (handleRequest_impl _ c). reflexivity.
  - rewrite bind_run. cbn [calls snd ret]. rewrite app_nil_r.
    destruct (handleMsg_calls payload c) as [H|[H|H]].
    + left. eexists. exact H.
    + left. eexists. exact H.
    + right. exact H.
  - rewrite bind_run. cbn [calls snd ret]. rewrite app_nil_r.
    apply handleCheckedMsg_calls.
Qed.

Lemma countCalls_app (p : Call -> bool) (t1 t2 : list Call) :
  countCalls p (t1 ++ t2) = (countCalls p t1 + countCalls p t2)%nat.
Proof.
  unfold countCalls. rewrite filter_app, length_app. reflexivity.
Qed.

(** Counting over a run: what each open outcome contributes adds up over
    the outcomes before the first closed channel. *)
Lemma handleEvents_count (p : Call -> bool) (w : selected -> nat) :
  (forall s c, closed s = false -> countCalls p (calls (processOne s c)) = w s) ->
  (forall text, p (call_log LvlError text) = false) ->
  forall feed c,
    countCalls p (calls (handleEvents feed c)) = list_sum (map w (livePrefix feed)).
Proof.
  intros Hstep Hlog feed. induction feed as [|s rest IH]; intros c.
  - reflexivity.
  - cbn [livePrefix]. destruct (closed s) eqn:E.
    + destruct s as [[ev|]|[|]|[|]]; try discriminate E;
        cbn; unfold countCalls; cbn; rewrite Hlog; reflexivity.
    + rewrite (handleEvents_open s rest E), bind_run. cbn [calls snd map].
      rewrite countCalls_app, IH, (Hstep s c E). reflexivity.
Qed.

Lemma handleEvents_count_le (p : Call -> bool) (w : selected -> nat) :
  (forall s c, closed s = false -> (countCalls p (calls (processOne s c)) <= w s)%nat) ->
  (forall text, p (call_log LvlError text) = false) ->
  forall feed c,
    (countCalls p (calls (handleEvents feed c)) <= list_sum (map w (livePrefix feed)))%nat.
Proof.
  intros Hstep Hlog feed. induction feed as [|s rest IH]; intros c.
  - cbn. unfold countCalls. cbn. lia.
  - cbn [livePrefix]. destruct (closed s) eqn:E.
    + destruct s as [[ev|]|[|]|[|]]; try discriminate E;
        cbn; unfold countCalls; cbn; rewrite Hlog; cbn; lia.
    + rewrite (handleEvents_open s rest E), bind_run. cbn [calls snd map].
      rewrite countCalls_app.
      change (list_sum (w s :: ?m)) with (w s + list_sum m)%nat.
      apply Nat.add_le_mono; [exact (Hstep s c E) | apply IH].
Qed.

Lemma list_sum_indicator (q : selected -> bool) (l : list selected) :
  list_sum (map (fun s => if q s then 1 else 0)%nat l) = countSelected q l.
Proof.
  unfold countSelected. induction l as [|s l IH]; [reflexivity|].
  cbn [map filter].
  match goal with
  | |- list_sum (?a :: ?m) = _ => change (list_sum (a :: m)) with (a + list_sum m)%nat
  end.
  rewrite IH. destruct (q s); reflexivity.
Qed.

(** Decides the count of one kind of call in the calls of one outcome. *)
Ltac count_step s c :=
  let H := fresh "H" in
  pose proof (processOne_calls s c) as H;
  destruct s as [[[?|?| |? ?|]|]|[|]|[|]]; cbn [stepCalls] in H;
  unfold checkedCalls in H;
  repeat match goal with
         | H : _ \/ _ |- _ => destruct H as [H|H]
         | H : exists _, _ |- _ => destruct H as [? H]
         end;
  rewrite H; unfold countCalls; cbn; try reflexivity; try lia.

(** X1. In a run of [handleEvents], handler.go calls [startNewRound] once
    for every timeout received, [handleFinalCommitted] once for every final
    commit and [handleRequest] once for every request, counted over the
    outcomes before the first closed channel, and for nothing else. *)
Theorem handleEvents_calls_per_outcome (feed : list selected) (c : core) :
  countCalls isStartNewRound (calls (handleEvents feed c)) =
    countSelected isTimeout (livePrefix feed)
  /\ countCalls isHandleFinalCommitted (calls (handleEvents feed c)) =
    countSelected isFinalCommitted (livePrefix feed)
  /\ countCalls isHandleRequest (calls (handleEvents feed c)) =
    countSelected isRequest (livePrefix feed).
Proof.
  split; [|split]; rewrite <- list_sum_indicator; apply handleEvents_count;
    try reflexivity; intros s c0 _; count_step s c0.
Qed.

(** X2. A run of [handleEvents] invokes at most one per-code handler for
    each message event or backlog event it receives and none for any other
    outcome, and stores at most as many messages in the Backlog as it
    invoked handlers. *)
Theorem handleEvents_handlers_bounded (feed : list selected) (c : core) :
  (countCalls isHandler (calls (handleEvents feed c)) <=
     countSelected isMessage (livePrefix feed))%nat
  /\ (countCalls isStoreBacklog (calls (handleEvents feed c)) <=
        countCalls isHandler (calls (handleEvents feed c)))%nat.
Proof.
  split.
  - rewrite <- list_sum_indicator. apply handleEvents_count_le;
      try reflexivity; intros s c0 _; count_step s c0.
  - revert c. induction feed as [|s rest IH]; intros c.
    + cbn. unfold countCalls. cbn. lia.
    + destruct (closed s) eqn:E.
      * destruct s as [[ev|]|[|]|[|]]; try discriminate E;
          cbn; unfold countCalls; cbn; lia.
      * rewrite (handleEvents_open s rest E), bind_run. cbn [calls snd].
        rewrite !countCalls_app. specialize (IH (final (processOne s c))).
        assert (countCalls isStoreBacklog (calls (processOne s c)) <=
                countCalls isHandler (calls (processOne s c)))%nat
          by (count_step s c).
        lia.
Qed.


(** X4. Nothing that the [select] delivers after a closed channel is
    processed: a run of [handleEvents] is its run on the outcomes up to and
    including the first closed one. *)
Theorem handleEvents_stops_at_first_close (feed : list selected) (c : core) :
  handleEvents feed c = handleEvents (upToClose feed) c
  /\ (existsb closed feed = false -> upToClose feed = feed).
Proof.
  split.
  - revert c. induction feed as [|s rest IH]; intros c; [reflexivity|].
    cbn [upToClose]. destruct (closed s) eqn:E.
    + destruct s as [[ev|]|[|]|[|]]; try discriminate E; reflexivity.
    + rewrite !(handleEvents_open s _ E), !bind_run, IH. reflexivity.
  - induction feed as [|s rest IH]; [reflexivity|].
    cbn [existsb upToClose]. intros H. apply orb_false_iff in H. destruct H as [Hs Hr].
    rewrite Hs, (IH Hr). reflexivity.
Qed.

Lemma storesFollowHandlers_app (t1 t2 : list Call) :
  storesFollowHandlers t1 -> storesFollowHandlers t2 -> storesFollowHandlers (t1 ++ t2).
Proof.
  intros H1 H2. induction H1 as [|h msg src t H IH|x t Hx H IH]; cbn [app].
  - exact H2.
  - apply sfh_stored. exact IH.
  - apply sfh_other; [exact Hx | exact IH].
Qed.

Lemma storesFollowHandlers_inv (t : list Call) :
  storesFollowHandlers t ->
  forall t1 msg src t2,
    t = t1 ++ call_storeBacklog msg src :: t2 ->
    exists h t0, t1 = t0 ++ [call_handler h msg src].
Proof.
  intros H. induction H as [|h m v t H IH|x t Hx H IH]; intros t1 msg src t2 E.
  - destruct t1; discriminate E.
  - destruct t1 as [|y t1]; [discriminate E|].
    cbn [app] in E. injection E as Ey E. subst y.
    destruct t1 as [|z t1].
    + cbn [app] in E. injection E as E1 E2 E3. subst. exists h, []. reflexivity.
    + cbn [app] in E. injection E as Ez E. subst z.
      destruct (IH t1 msg src t2 E) as (h' & t0 & E0).
      exists h', (call_handler h m v :: call_storeBacklog m v :: t0).
      rewrite E0. reflexivity.
  - destruct t1 as [|y t1].
    + cbn [app] in E. injection E as Ex E. subst x. discriminate Hx.
    + cbn [app] in E. injection E as Ey E. subst y.
      destruct (IH t1 msg src t2 E) as (h' & t0 & E0).
      exists h', (x :: t0). rewrite E0. reflexivity.
Qed.

Lemma processOne_storesFollowHandlers (s : selected) (c : core) :
  storesFollowHandlers (calls (processOne s c)).
Proof.
  pose proof (processOne_calls s c) as H.
  destruct s as [[[?|?| |? ?|]|]|[|]|[|]]; cbn [stepCalls] in H;
    unfold checkedCalls in H;
    repeat match goal with
           | H : _ \/ _ |- _ => destruct H as [H|H]
           | H : exists _, _ |- _ => destruct H as [? H]
           end;
    rewrite H;
    repeat first [ apply sfh_nil
                 | apply sfh_stored
                 | apply sfh_other; [reflexivity|] ].
Qed.

Lemma handleEvents_storesFollowHandlers (feed : list selected) : forall c : core,
  storesFollowHandlers (calls (handleEvents feed c)).
Proof.
  induction feed as [|s rest IH]; intros c.
  - apply sfh_nil.
  - destruct (closed s) eqn:E.
    + destruct s as [[ev|]|[|]|[|]]; try discriminate E;
        cbn; (apply sfh_other; [reflexivity | apply sfh_nil]).
    + rewrite (handleEvents_open s rest E), bind_run. cbn [calls snd].
      apply storesFollowHandlers_app; [apply processOne_storesFollowHandlers | apply IH].
Qed.

(** X5. In a run of [handleEvents], every [storeBacklog] call comes
    straight after the call of a per-code handler on the same message and
    signer: nothing reaches the Backlog that a handler has not just seen. *)
Theorem handleEvents_stores_follow_handlers
    (feed : list selected) (c : core)
    (t1 : list Call) (msg : message) (src : Validator) (t2 : list Call) :
  calls (handleEvents feed c) = t1 ++ call_storeBacklog msg src :: t2 ->
  exists h t0, t1 = t0 ++ [call_handler h msg src].
Proof.
  intros E.
  exact (storesFollowHandlers_inv _ (handleEvents_storesFollowHandlers feed c) t1 msg src t2 E).
Qed.

(** X6. [handleCheckedMsg] stores a message in the Backlog exactly when it
    returns [errFutureMessage]; for nil and for every other error (an old
    message, an unknown code, a failed check) nothing is stored.  Through
    [handleMsg] likewise, where a stored message is the decoded one with its
    resolved signer. *)
Theorem backlog_store_iff_future_message
    (payload : list byte) (msg : message) (src : Validator) (c : core) :
  backlogCalls (calls (handleCheckedMsg msg src c)) =
    (if isFutureMessage (result (handleCheckedMsg msg src c)) then [(msg, src)] else [])
  /\ (backlogCalls (calls (handleMsg payload c)) = []
      \/ exists m v,
          FromPayload_impl payload c = inl m
          /\ snd (GetByAddress (valSet c) (Address m)) = Some v
          /\ result (handleMsg payload c) = Some errFutureMessage
          /\ backlogCalls (calls (handleMsg payload c)) = [(m, v)]).
Proof.
  assert (K : forall m v,
             backlogCalls (calls (handleCheckedMsg m v c)) =
             (if isFutureMessage (result (handleCheckedMsg m v c)) then [(m, v)] else [])).
  { intros m v. destruct (handlerFor (Code m)) as [h|] eqn:E.
    - rewrite (handleCheckedMsg_case m v c h E). cbv zeta.
      destruct (isFutureMessage (fst (handler_impl h m v c))) eqn:F;
        cbn [result calls fst snd]; rewrite F; reflexivity.
    - rewrite (handleCheckedMsg_unknown m v c E). reflexivity. }
  split; [apply K|].
  destruct (FromPayload_impl payload c) as [m|err] eqn:E.
  - destruct (snd (GetByAddress (valSet c) (Address m))) as [v|] eqn:G.
    + rewrite (handleMsg_checked payload c m v E G), K.
      destruct (result (handleCheckedMsg m v c)) as [[]|] eqn:R; cbn [isFutureMessage];
        try (left; reflexivity).
      right. exists m, v. auto.
    + left. rewrite (handleMsg_invalid_signer payload c m E G). reflexivity.
  - left. rewrite (handleMsg_decode_error payload c err E). reflexivity.
Qed.

(** X7. [handleMsg] returns nil only for a payload that decoded, whose
    sender resolved to a validator, whose code is one of the seven, and
    whose handler returned nil. *)
Theorem handleMsg_nil_means_handled (payload : list byte) (c : core) :
  result (handleMsg payload c) = None ->
  exists msg src h,
    FromPayload_impl payload c = inl msg
    /\ snd (GetByAddress (valSet c) (Address msg)) = Some src
    /\ handlerFor (Code msg) = Some h
    /\ fst (handler_impl h msg src c) = None
    /\ handleMsg payload c = (None, snd (handler_impl h msg src c), [call_handler h msg src]).
Proof.
  intros R.
  destruct (FromPayload_impl payload c) as [msg|err] eqn:E.
  - destruct (snd (GetByAddress (valSet c) (Address msg))) as [src|] eqn:G.
    + rewrite (handleMsg_checked payload c msg src E G) in R |- *.
      destruct (handlerFor (Code msg)) as [h|] eqn:H.
      * rewrite (handleCheckedMsg_case msg src c h H) in R |- *. cbv zeta in R |- *.
        destruct (fst (handler_impl h msg src c)) as [e|] eqn:F.
        -- destruct (isFutureMessage (Some e)); discriminate R.
        -- exists msg, src, h. cbn [isFutureMessage]. auto.
      * rewrite (handleCheckedMsg_unknown msg src c H) in R. discriminate R.
    + rewrite (handleMsg_invalid_signer payload c msg E G) in R. discriminate R.
  - rewrite (handleMsg_decode_error payload c err E) in R. discriminate R.
Qed.

(** X17. Every per-code handler that [handleMsg] invokes runs on the
    message the payload decoded to, with the validator its sender resolved
    to, and is the handler of that message's code; every message it stores
    is that same message with that same validator. *)
Theorem handleMsg_calls_are_for_the_decoded_message
    (payload : list byte) (c : core) (x : Call) :
  In x (calls (handleMsg payload c)) ->
  isHandler x = true \/ isStoreBacklog x = true ->
  exists msg src h,
    FromPayload_impl payload c = inl msg
    /\ snd (GetByAddress (valSet c) (Address msg)) = Some src
    /\ handlerFor (Code msg) = Some h
    /\ Code msg = MsgType h
    /\ (x = call_handler h msg src \/ x = call_storeBacklog msg src).
Proof.
  intros Hin Hk.
  destruct (FromPayload_impl payload c) as [msg|err] eqn:E.
  - destruct (snd (GetByAddress (valSet c) (Address msg))) as [src|] eqn:G.
    + rewrite (handleMsg_checked payload c msg src E G) in Hin.
      destruct (handlerFor (Code msg)) as [h|] eqn:H.
      * exists msg, src, h.
        split; [first [reflexivity | exact E]|].
        split; [first [reflexivity | exact G]|].
        split; [first [reflexivity | exact H]|].
        split; [exact (handlerFor_Some _ _ H)|].
        rewrite (handleCheckedMsg_case msg src c h H) in Hin. cbv zeta in Hin.
        destruct (isFutureMessage _); cbn in Hin;
          repeat (destruct Hin as [Hin|Hin]; [subst x; auto|]); contradiction.
      * rewrite (handleCheckedMsg_unknown msg src c H) in Hin. cbn in Hin.
        destruct Hin as [Hin|[]]. subst x. destruct Hk; discriminate.
    + rewrite (handleMsg_invalid_signer payload c msg E G) in Hin. cbn in Hin.
      destruct Hin as [Hin|[]]. subst x. destruct Hk; discriminate.
  - rewrite (handleMsg_decode_error payload c err E) in Hin. cbn in Hin.
    destruct Hin as [Hin|[]]. subst x. destruct Hk; discriminate.
Qed.

(** The run of [subscribeEvents], with the subscriptions as the mux hands
    them out. *)
Lemma subscribeEvents_run (c : core) :
  let r1 := Subscribe_impl [TRequestEvent; TMessageEvent; TbacklogEvent] (backend c) in
  let r2 := Subscribe_impl [TtimeoutEvent] (snd r1) in
  let r3 := Subscribe_impl [TFinalCommittedEvent] (snd r2) in
  subscribeEvents c =
    (tt,
     set_finalCommittedSub (fst r3)
       (set_backend (snd r3)
          (set_timeoutSub (fst r2)
             (set_backend (snd r2)
                (set_events (fst r1) (set_backend (snd r1) c))))),
     [call_Subscribe [TRequestEvent; TMessageEvent; TbacklogEvent] (fst r1);
      call_Subscribe [TtimeoutEvent] (fst r2);
      call_Subscribe [TFinalCommittedEvent] (fst r3)]).
Proof.
  cbv zeta. unfold subscribeEvents, Subscribe, modify, bind. cbn.
  destruct (Subscribe_impl [TRequestEvent; TMessageEvent; TbacklogEvent] (backend c))
    as [s1 b1]. cbn.
  destruct (Subscribe_impl [TtimeoutEvent] b1) as [s2 b2]. cbn.
  destruct (Subscribe_impl [TFinalCommittedEvent] b2) as [s3 b3]. reflexivity.
Qed.

Lemma Stop_run (c : core) :
  let c1 := stopTimer_impl c in
  calls (Stop c) =
    [call_stopTimer; call_Unsubscribe (events c1);
     call_Unsubscribe (timeoutSub c1); call_Unsubscribe (finalCommittedSub c1)]
  /\ result (Stop c) = None.
Proof.
  split; reflexivity.
Qed.

(** X8. When [stopTimer] leaves the three subscription fields alone,
    [Stop] on a core on which [subscribeEvents] has run unsubscribes the
    three subscriptions that [subscribeEvents] took out, in the order in
    which it took them. *)
Theorem Stop_after_subscribeEvents (c : core) :
  (forall c0 : core,
      events (stopTimer_impl c0) = events c0
      /\ timeoutSub (stopTimer_impl c0) = timeoutSub c0
      /\ finalCommittedSub (stopTimer_impl c0) = finalCommittedSub c0) ->
  exists s1 s2 s3,
    calls (subscribeEvents c) =
      [call_Subscribe [TRequestEvent; TMessageEvent; TbacklogEvent] s1;
       call_Subscribe [TtimeoutEvent] s2;
       call_Subscribe [TFinalCommittedEvent] s3]
    /\ calls (Stop (final (subscribeEvents c))) =
      [call_stopTimer; call_Unsubscribe s1; call_Unsubscribe s2; call_Unsubscribe s3]
    /\ result (Stop (final (subscribeEvents c))) = None.
Proof.
  intros Hframe.
  pose proof (subscribeEvents_run c) as R. cbv zeta in R.
  do 3 eexists. rewrite R. cbn [calls final fst snd]. split; [reflexivity|].
  destruct (Stop_run (final (subscribeEvents c))) as [Hc Hr]. cbv zeta in Hc.
  rewrite R in Hc, Hr. cbn [final fst snd] in Hc, Hr.
  split; [|exact Hr]. rewrite Hc.
  match goal with
  | |- context [stopTimer_impl ?x] => destruct (Hframe x) as (He & Ht & Hf)
  end.
  rewrite He, Ht, Hf. reflexivity.
Qed.

(** X9. [subscribeEvents] overwrites the three subscription fields: after
    a second [subscribeEvents], [unsubscribeEvents] unsubscribes the three
    subscriptions of the second call and none of the first. *)
Theorem subscribeEvents_twice_keeps_the_last (c : core) :
  exists s1 s2 s3 s4 s5 s6,
    calls (subscribeEvents c) =
      [call_Subscribe [TRequestEvent; TMessageEvent; TbacklogEvent] s1;
       call_Subscribe [TtimeoutEvent] s2;
       call_Subscribe [TFinalCommittedEvent] s3]
    /\ calls (subscribeEvents (final (subscribeEvents c))) =
      [call_Subscribe [TRequestEvent; TMessageEvent; TbacklogEvent] s4;
       call_Subscribe [TtimeoutEvent] s5;
       call_Subscribe [TFinalCommittedEvent] s6]
    /\ calls (unsubscribeEvents (final (subscribeEvents (final (subscribeEvents c))))) =
      [call_Unsubscribe s4; call_Unsubscribe s5; call_Unsubscribe s6].
Proof.
  pose proof (subscribeEvents_run c) as R1. cbv zeta in R1.
  pose proof (subscribeEvents_run (final (subscribeEvents c))) as R2. cbv zeta in R2.
  do 6 eexists. rewrite R2, R1. cbn [calls final fst snd].
  split; [reflexivity|]. split; reflexivity.
Qed.

End LoopFacts.

(* ================================================================== *)
(** * Further properties of param.go *)
(* ================================================================== *)

Section ReceiverFacts.

Context {Source : Type} {R : SourceReader Source}.

(** X10. [Deserialization] never reads its receiver: the error and the
    source it leaves are the same for any two receivers, and on success
    the two receivers end up equal, every field overwritten (the byte
    strings read do not add to those the receiver held). *)
Theorem Deserialization_ignores_receiver :
  (forall (this1 this2 : SyncGenesisHeaderParam.t) (source : Source),
      errOf (SyncGenesisHeaderParam.Deserialization this1 source) =
        errOf (SyncGenesisHeaderParam.Deserialization this2 source)
      /\ sourceOf (SyncGenesisHeaderParam.Deserialization this1 source) =
        sourceOf (SyncGenesisHeaderParam.Deserialization this2 source)
      /\ (errOf (SyncGenesisHeaderParam.Deserialization this1 source) = None ->
          receiverOf (SyncGenesisHeaderParam.Deserialization this1 source) =
            receiverOf (SyncGenesisHeaderParam.Deserialization this2 source)))
  /\ (forall (this1 this2 : SyncBlockHeaderParam.t) (source : Source),
      errOf (SyncBlockHeaderParam.Deserialization this1 source) =
        errOf (SyncBlockHeaderParam.Deserialization this2 source)
      /\ sourceOf (SyncBlockHeaderParam.Deserialization this1 source) =
        sourceOf (SyncBlockHeaderParam.Deserialization this2 source)
      /\ (errOf (SyncBlockHeaderParam.Deserialization this1 source) = None ->
          receiverOf (SyncBlockHeaderParam.Deserialization this1 source) =
            receiverOf (SyncBlockHeaderParam.Deserialization this2 source)))
  /\ (forall (this1 this2 : SyncCrossChainMsgParam.t) (source : Source),
      errOf (SyncCrossChainMsgParam.Deserialization this1 source) =
        errOf (SyncCrossChainMsgParam.Deserialization this2 source)
      /\ sourceOf (SyncCrossChainMsgParam.Deserialization this1 source) =
        sourceOf (SyncCrossChainMsgParam.Deserialization this2 source)
      /\ (errOf (SyncCrossChainMsgParam.Deserialization this1 source) = None ->
          receiverOf (SyncCrossChainMsgParam.Deserialization this1 source) =
            receiverOf (SyncCrossChainMsgParam.Deserialization this2 source))).
Proof.
  unfold errOf, receiverOf, sourceOf.
  split; [|split]; intros this1 this2 source.
  - unfold SyncGenesisHeaderParam.Deserialization.
    destruct (NextUint64 source) as [[chainID [|]] s1]; cbn;
      [repeat split; discriminate|].
    destruct (NextVarBytes s1) as [[g [|]] s2]; cbn; repeat split; discriminate.
  - unfold SyncBlockHeaderParam.Deserialization.
    destruct (NextUint64 source) as [[chainID [|]] s1]; cbn;
      [repeat split; discriminate|].
    destruct (NextAddress s1) as [[a [|]] s2]; cbn; [repeat split; discriminate|].
    destruct (NextUint64 s2) as [[n [|]] s3]; cbn; [repeat split; discriminate|].
    destruct (nextVarBytesLoop (Z.to_nat n) [] s3) as [[hs|] s4]; cbn;
      repeat split; discriminate.
  - unfold SyncCrossChainMsgParam.Deserialization.
    destruct (NextUint64 source) as [[chainID [|]] s1]; cbn;
      [repeat split; discriminate|].
    destruct (NextAddress s1) as [[a [|]] s2]; cbn; [repeat split; discriminate|].
    destruct (NextUint64 s2) as [[n [|]] s3]; cbn; [repeat split; discriminate|].
    destruct (nextVarBytesLoop (Z.to_nat n) [] s3) as [[hs|] s4]; cbn;
      repeat split; discriminate.
Qed.

End ReceiverFacts.

Section CodecFacts.

Import polycomm.

Lemma positioned_start (src : ZeroCopySource) (pre rest : list byte) :
  positioned src pre rest ->
  src = {| s := pre ++ rest; off := Z.of_nat (List.length pre) |}.
Proof.
  intros (Hs & Ho & _). destruct src as [s0 o0]. cbn in *. subst. reflexivity.
Qed.

Lemma genesisBytes_eq (p : SyncGenesisHeaderParam.t) :
  genesisBytes p =
  le_encode 8 (SyncGenesisHeaderParam.ChainID p)
  ++ varBytesBytes (SyncGenesisHeaderParam.GenesisHeader p).
Proof. apply SyncGenesisHeaderParam_bytes. Qed.

Lemma headersBytes_eq (p : SyncBlockHeaderParam.t) :
  headersBytes p =
  le_encode 8 (SyncBlockHeaderParam.ChainID p)
  ++ SyncBlockHeaderParam.Address p
  ++ le_encode 8 (Z.of_nat (List.length (SyncBlockHeaderParam.Headers p)))
  ++ concat (map varBytesBytes (SyncBlockHeaderParam.Headers p)).
Proof. apply SyncBlockHeaderParam_bytes. Qed.

Lemma msgsBytes_eq (p : SyncCrossChainMsgParam.t) :
  msgsBytes p =
  le_encode 8 (SyncCrossChainMsgParam.ChainID p)
  ++ SyncCrossChainMsgParam.Address p
  ++ le_encode 8 (Z.of_nat (List.length (SyncCrossChainMsgParam.CrossChainMsgs p)))
  ++ concat (map varBytesBytes (SyncCrossChainMsgParam.CrossChainMsgs p)).
Proof. apply SyncCrossChainMsgParam_bytes. Qed.

(** What each [Serialization] leaves in a sink that already holds bytes. *)
Lemma genesis_buf (p : SyncGenesisHeaderParam.t) (k : ZeroCopySink) :
  Bytes (SyncGenesisHeaderParam.Serialization p k) = Bytes k ++ genesisBytes p.
Proof.
  rewrite genesisBytes_eq. unfold Bytes, SyncGenesisHeaderParam.Serialization.
  cbn [WriteUint64 WriteVarBytes sinkWriter].
  rewrite WriteVarBytes_buf. unfold sink_WriteUint64, WriteBytes. cbn [buf].
  rewrite <- app_assoc. reflexivity.
Qed.

Lemma headers_buf (p : SyncBlockHeaderParam.t) (k : ZeroCopySink) :
  Bytes (SyncBlockHeaderParam.Serialization p k) = Bytes k ++ headersBytes p.
Proof.
  rewrite headersBytes_eq. unfold Bytes, SyncBlockHeaderParam.Serialization.
  cbn [WriteUint64 WriteAddress sinkWriter].
  rewrite writeVarBytesRange_buf.
  unfold sink_WriteUint64, sink_WriteAddress, WriteBytes. cbn [buf].
  rewrite <- !app_assoc. reflexivity.
Qed.

Lemma msgs_buf (p : SyncCrossChainMsgParam.t) (k : ZeroCopySink) :
  Bytes (SyncCrossChainMsgParam.Serialization p k) = Bytes k ++ msgsBytes p.
Proof.
  rewrite msgsBytes_eq. unfold Bytes, SyncCrossChainMsgParam.Serialization.
  cbn [WriteUint64 WriteAddress sinkWriter].
  rewrite writeVarBytesRange_buf.
  unfold sink_WriteUint64, sink_WriteAddress, WriteBytes. cbn [buf].
  rewrite <- !app_assoc. reflexivity.
Qed.

(** X11. [Serialization] only appends: the bytes a sink held stay as they
    were, and what is added is what the value serializes to on its own. *)
Theorem Serialization_appends (k : ZeroCopySink) :
  (forall p : SyncGenesisHeaderParam.t,
      Bytes (SyncGenesisHeaderParam.Serialization p k) = Bytes k ++ genesisBytes p)
  /\ (forall p : SyncBlockHeaderParam.t,
      Bytes (SyncBlockHeaderParam.Serialization p k) = Bytes k ++ headersBytes p)
  /\ (forall p : SyncCrossChainMsgParam.t,
      Bytes (SyncCrossChainMsgParam.Serialization p k) = Bytes k ++ msgsBytes p).
Proof.
  split; [|split]; intros p.
  - apply genesis_buf.
  - apply headers_buf.
  - apply msgs_buf.
Qed.

(** Reading a value where the source stands, with more bytes behind it. *)
Lemma genesis_read_at (p this : SyncGenesisHeaderParam.t)
    (src : ZeroCopySource) (pre rest : list byte) :
  wellTypedGenesis p ->
  positioned src pre (genesisBytes p ++ rest) ->
  exists src',
    SyncGenesisHeaderParam.Deserialization this src = (None, p, src')
    /\ positioned src' (pre ++ genesisBytes p) rest.
Proof.
  intros Hc Hp. rewrite genesisBytes_eq in *. rewrite <- app_assoc in Hp.
  destruct (NextUint64_positioned _ _ _ _ Hc Hp) as (s1 & E1 & Hp1).
  destruct (NextVarBytes_positioned _ _ _ _ Hp1) as (s2 & E2 & Hp2).
  exists s2. split.
  - unfold SyncGenesisHeaderParam.Deserialization.
    cbn [NextUint64 NextVarBytes sourceReader]. rewrite E1, E2.
    destruct p; reflexivity.
  - rewrite <- app_assoc in Hp2. exact Hp2.
Qed.

Lemma list_read_at (chainID : Z) (addr : address) (l : list (list byte))
    (src : ZeroCopySource) (pre rest : list byte) :
  0 <= chainID < 2 ^ 64 ->
  Z.of_nat (List.length addr) = AddressLength ->
  positioned src pre
    ((le_encode 8 chainID ++ addr ++ le_encode 8 (Z.of_nat (List.length l))
      ++ concat (map varBytesBytes l)) ++ rest) ->
  exists s1 s2 s3 s4,
    source_NextUint64 src = (chainID, false, s1)
    /\ source_NextAddress s1 = (addr, false, s2)
    /\ source_NextUint64 s2 = (Z.of_nat (List.length l), false, s3)
    /\ nextVarBytesLoop (Z.to_nat (Z.of_nat (List.length l))) [] s3 = (Some l, s4)
    /\ positioned s4
         (pre ++ le_encode 8 chainID ++ addr ++ le_encode 8 (Z.of_nat (List.length l))
          ++ concat (map varBytesBytes l)) rest.
Proof.
  intros Hc Ha Hp.
  assert (Hn : 0 <= Z.of_nat (List.length l) < 2 ^ 64).
  { split; [lia|]. destruct Hp as (Hs & _ & Hl). rewrite Hs in Hl.
    rewrite !length_app in Hl. pose proof (items_le_bytes l). lia. }
  rewrite <- !app_assoc in Hp.
  destruct (NextUint64_positioned _ _ _ _ Hc Hp) as (s1 & E1 & Hp1).
  destruct (NextAddress_positioned _ _ _ _ Ha Hp1) as (s2 & E2 & Hp2).
  destruct (NextUint64_positioned _ _ _ _ Hn Hp2) as (s3 & E3 & Hp3).
  destruct (nextVarBytesLoop_positioned l [] _ _ _ Hp3) as (s4 & E4 & Hp4).
  exists s1, s2, s3, s4. rewrite Nat2Z.id.
  rewrite <- !app_assoc in Hp4. auto.
Qed.

Lemma headers_read_at (p this : SyncBlockHeaderParam.t)
    (src : ZeroCopySource) (pre rest : list byte) :
  wellTypedHeaders p ->
  positioned src pre (headersBytes p ++ rest) ->
  exists src',
    SyncBlockHeaderParam.Deserialization this src = (None, p, src')
    /\ positioned src' (pre ++ headersBytes p) rest.
Proof.
  intros [Hc Ha] Hp. rewrite headersBytes_eq in *.
  destruct (list_read_at _ _ _ _ _ _ Hc Ha Hp) as (s1 & s2 & s3 & s4 & E1 & E2 & E3 & E4 & Hp4).
  exists s4. split; [|exact Hp4].
  unfold SyncBlockHeaderParam.Deserialization.
  cbn [NextUint64 NextAddress sourceReader]. rewrite E1, E2, E3, E4.
  destruct p; reflexivity.
Qed.

Lemma msgs_read_at (p this : SyncCrossChainMsgParam.t)
    (src : ZeroCopySource) (pre rest : list byte) :
  wellTypedMsgs p ->
  positioned src pre (msgsBytes p ++ rest) ->
  exists src',
    SyncCrossChainMsgParam.Deserialization this src = (None, p, src')
    /\ positioned src' (pre ++ msgsBytes p) rest.
Proof.
  intros [Hc Ha] Hp. rewrite msgsBytes_eq in *.
  destruct (list_read_at _ _ _ _ _ _ Hc Ha Hp) as (s1 & s2 & s3 & s4 & E1 & E2 & E3 & E4 & Hp4).
  exists s4. split; [|exact Hp4].
  unfold SyncCrossChainMsgParam.Deserialization.
  cbn [NextUint64 NextAddress sourceReader]. rewrite E1, E2, E3, E4.
  destruct p; reflexivity.
Qed.

(** X12. [Deserialization] reads exactly the bytes of one value: on a
    source that stands before the bytes of a value, with anything behind
    them, it returns nil and that value and leaves the source standing
    right behind those bytes, so that values written one after another are
    read back one after another. *)
Theorem Deserialization_reads_one_value
    (src : ZeroCopySource) (pre rest : list byte) :
  (forall p this : SyncGenesisHeaderParam.t,
      wellTypedGenesis p ->
      positioned src pre (genesisBytes p ++ rest) ->
      SyncGenesisHeaderParam.Deserialization this src =
        (None, p, {| s := s src;
                     off := off src + Z.of_nat (List.length (genesisBytes p)) |})
      /\ positioned {| s := s src;
                       off := off src + Z.of_nat (List.length (genesisBytes p)) |}
           (pre ++ genesisBytes p) rest)
  /\ (forall p this : SyncBlockHeaderParam.t,
      wellTypedHeaders p ->
      positioned src pre (headersBytes p ++ rest) ->
      SyncBlockHeaderParam.Deserialization this src =
        (None, p, {| s := s src;
                     off := off src + Z.of_nat (List.length (headersBytes p)) |})
      /\ positioned {| s := s src;
                       off := off src + Z.of_nat (List.length (headersBytes p)) |}
           (pre ++ headersBytes p) rest)
  /\ (forall p this : SyncCrossChainMsgParam.t,
      wellTypedMsgs p ->
      positioned src pre (msgsBytes p ++ rest) ->
      SyncCrossChainMsgParam.Deserialization this src =
        (None, p, {| s := s src;
                     off := off src + Z.of_nat (List.length (msgsBytes p)) |})
      /\ positioned {| s := s src;
                       off := off src + Z.of_nat (List.length (msgsBytes p)) |}
           (pre ++ msgsBytes p) rest).
Proof.
  assert (K : forall (b : list byte) (src' : ZeroCopySource),
             positioned src pre (b ++ rest) ->
             positioned src' (pre ++ b) rest ->
             src' = {| s := s src; off := off src + Z.of_nat (List.length b) |}).
  { intros b src' (Hs & Ho & _) H'. rewrite (positioned_start _ _ _ H').
    rewrite Hs, Ho, length_app, Nat2Z.inj_add, <- app_assoc. reflexivity. }
  split; [|split]; intros p this Hw Hp.
  - destruct (genesis_read_at p this src pre rest Hw Hp) as (src' & E & Hp').
    rewrite <- (K _ src' Hp Hp'). auto.
  - destruct (headers_read_at p this src pre rest Hw Hp) as (src' & E & Hp').
    rewrite <- (K _ src' Hp Hp'). auto.
  - destruct (msgs_read_at p this src pre rest Hw Hp) as (src' & E & Hp').
    rewrite <- (K _ src' Hp Hp'). auto.
Qed.

(** X13. [Serialization] is one-to-one on the values of each struct: two
    values that serialize to the same bytes are the same value. *)
Theorem Serialization_injective :
  (forall p q : SyncGenesisHeaderParam.t,
      wellTypedGenesis p -> wellTypedGenesis q ->
      Z.of_nat (List.length (genesisBytes p)) < 2 ^ 64 ->
      genesisBytes p = genesisBytes q -> p = q)
  /\ (forall p q : SyncBlockHeaderParam.t,
      wellTypedHeaders p -> wellTypedHeaders q ->
      Z.of_nat (List.length (headersBytes p)) < 2 ^ 64 ->
      headersBytes p = headersBytes q -> p = q)
  /\ (forall p q : SyncCrossChainMsgParam.t,
      wellTypedMsgs p -> wellTypedMsgs q ->
      Z.of_nat (List.length (msgsBytes p)) < 2 ^ 64 ->
      msgsBytes p = msgsBytes q -> p = q).
Proof.
  split; [|split]; intros p q Hp Hq Hl E.
  - pose proof (positioned_new _ Hl) as P. rewrite <- (app_nil_r (genesisBytes p)) in P at 2.
    destruct (genesis_read_at p p _ _ _ Hp P) as (s1 & E1 & _).
    rewrite E in P.
    rewrite <- (app_nil_r (genesisBytes q)) in P at 1. rewrite app_nil_r in P at 1.
    destruct (genesis_read_at q p _ _ _ Hq P) as (s2 & E2 & _).
    rewrite E in E1. rewrite E1 in E2. injection E2 as E2 _. exact E2.
  - pose proof (positioned_new _ Hl) as P. rewrite <- (app_nil_r (headersBytes p)) in P at 2.
    destruct (headers_read_at p p _ _ _ Hp P) as (s1 & E1 & _).
    rewrite E in P.
    rewrite <- (app_nil_r (headersBytes q)) in P at 1. rewrite app_nil_r in P at 1.
    destruct (headers_read_at q p _ _ _ Hq P) as (s2 & E2 & _).
    rewrite E in E1. rewrite E1 in E2. injection E2 as E2 _. exact E2.
  - pose proof (positioned_new _ Hl) as P. rewrite <- (app_nil_r (msgsBytes p)) in P at 2.
    destruct (msgs_read_at p p _ _ _ Hp P) as (s1 & E1 & _).
    rewrite E in P.
    rewrite <- (app_nil_r (msgsBytes q)) in P at 1. rewrite app_nil_r in P at 1.
    destruct (msgs_read_at q p _ _ _ Hq P) as (s2 & E2 & _).
    rewrite E in E1. rewrite E1 in E2. injection E2 as E2 _. exact E2.
Qed.

(** *** A source that ends too early *)

Lemma strictPrefix_length (q b : list byte) :
  strictPrefix q b -> (List.length q < List.length b)%nat.
Proof.
  intros (t & Ht & E). subst b. rewrite length_app.
  destruct t; [contradiction|]. cbn. lia.
Qed.

Lemma strictPrefix_app (q a b : list byte) :
  strictPrefix q (a ++ b) ->
  strictPrefix q a \/ exists q', q = a ++ q' /\ strictPrefix q' b.
Proof.
  intros (t & Ht & E). symmetry in E.
  apply app_eq_app in E. destruct E as (l & [[E1 E2]|[E1 E2]]).
  - right. exists l. split; [exact E1|]. exists t. auto.
  - destruct l as [|x l].
    + right. exists []. rewrite app_nil_r in E1. split; [rewrite app_nil_r; auto|].
      exists t. cbn in E2. subst. auto.
    + left. exists (x :: l). split; [discriminate | exact E1].
Qed.

Lemma strictPrefix_cons (q : list byte) (x : byte) (l : list byte) :
  strictPrefix q (x :: l) -> q = [] \/ exists q', q = x :: q' /\ strictPrefix q' l.
Proof.
  intros (t & Ht & E). destruct q as [|y q]; [left; reflexivity|].
  right. cbn in E. injection E as Ey E. subst y. exists q.
  split; [reflexivity|]. exists t. auto.
Qed.

Lemma NextBytes_short (n : Z) (src : ZeroCopySource) (pre q : list byte) :
  positioned src pre q ->
  0 <= n < 2 ^ 64 ->
  Z.of_nat (List.length q) < n ->
  snd (fst (NextBytes n src)) = true.
Proof.
  intros (Hs & Ho & Hl) Hn Hq.
  assert (Hm : Z.of_nat (List.length (s src)) =
               Z.of_nat (List.length pre) + Z.of_nat (List.length q)).
  { rewrite Hs, length_app. lia. }
  unfold NextBytes, SafeAdd. cbn [fst snd].
  pose proof (Z.mod_pos_bound (off src + n) (2 ^ 64) ltac:(lia)) as Hb.
  pose proof (Z.div_mod (off src + n) (2 ^ 64) ltac:(lia)) as Hd.
  apply orb_true_iff.
  destruct (Z_lt_ge_dec (off src + n) (2 ^ 64)) as [Hlt|Hge].
  - right. rewrite Z.mod_small by lia. apply Z.ltb_lt. lia.
  - left. apply Z.ltb_lt.
    assert (1 <= (off src + n) / 2 ^ 64) by (apply Z.div_le_lower_bound; lia).
    lia.
Qed.

Lemma NextUint_short (n : Z) (src : ZeroCopySource) (pre q : list byte) :
  positioned src pre q ->
  0 <= n < 2 ^ 64 ->
  Z.of_nat (List.length q) < n ->
  snd (fst (NextUint n src)) = true.
Proof.
  intros Hp Hn Hq. pose proof (NextBytes_short n src pre q Hp Hn Hq) as H.
  unfold NextUint. destruct (NextBytes n src) as [[b eof] src']. cbn in H. subst eof.
  reflexivity.
Qed.

Lemma NextByte_short (src : ZeroCopySource) (pre : list byte) :
  positioned src pre [] -> snd (fst (NextByte src)) = true.
Proof.
  intros (Hs & Ho & _). unfold NextByte.
  rewrite Hs, app_nil_r, Ho, Z.leb_refl. reflexivity.
Qed.

Lemma NextVarUint_short (v : Z) (src : ZeroCopySource) (pre q : list byte) :
  strictPrefix q (varUintBytes v) ->
  positioned src pre q ->
  snd (fst (NextVarUint src)) = true.
Proof.
  intros Hq Hp.
  assert (K : forall (tag : byte) (n : nat) (size : Z),
             strictPrefix q (tag :: le_encode n v) ->
             size = Z.of_nat n -> 0 <= size < 2 ^ 64 ->
             (forall self,
                 (if Z_of_byte tag =? 253 then NextUint UINT16_SIZE self
                  else if Z_of_byte tag =? 254 then NextUint UINT32_SIZE self
                  else if Z_of_byte tag =? 255 then NextUint UINT64_SIZE self
                  else (Z_of_byte tag, false, self)) = NextUint size self) ->
             snd (fst (NextVarUint src)) = true).
  { intros tag n size Hs Hsize Hb Hsel.
    apply strictPrefix_cons in Hs. destruct Hs as [Hs|(q' & Hs & Hs')].
    - subst q. pose proof (NextByte_short src pre Hp) as H.
      unfold NextVarUint. destruct (NextByte src) as [[fb eof] s1]. cbn in H. subst eof.
      reflexivity.
    - subst q. destruct (NextByte_positioned src pre q' tag Hp) as (s1 & E1 & Hp1).
      apply strictPrefix_length in Hs'. rewrite le_encode_length in Hs'.
      pose proof (NextUint_short size s1 _ q' Hp1 Hb ltac:(lia)) as H.
      unfold NextVarUint. rewrite E1, Hsel. exact H. }
  revert Hq. unfold varUintBytes, WriteVarUint, WriteBytes, NewZeroCopySink. cbn [buf app].
  destruct (v <? 253).
  - cbn [buf app]. intros Hq. apply strictPrefix_cons in Hq.
    destruct Hq as [Hq|(q' & _ & Hq')].
    + subst q. pose proof (NextByte_short src pre Hp) as H.
      unfold NextVarUint. destruct (NextByte src) as [[fb eof] s1]. cbn in H. subst eof.
      reflexivity.
    + apply strictPrefix_length in Hq'. cbn in Hq'. lia.
  - destruct (v <=? 65535); [|destruct (v <=? 4294967295)]; cbn [buf app]; intros Hq.
    + apply (K _ 2%nat 2 Hq); [reflexivity | lia | intros self; reflexivity].
    + apply (K _ 4%nat 4 Hq); [reflexivity | lia | intros self; reflexivity].
    + apply (K _ 8%nat 8 Hq); [reflexivity | lia | intros self; reflexivity].
Qed.

Lemma NextVarBytes_short (d : list byte) (src : ZeroCopySource) (pre q : list byte) :
  Z.of_nat (List.length d) < 2 ^ 64 ->
  strictPrefix q (varBytesBytes d) ->
  positioned src pre q ->
  snd (fst (source_NextVarBytes src)) = true.
Proof.
  intros Hd Hq Hp. unfold varBytesBytes in Hq.
  apply strictPrefix_app in Hq. destruct Hq as [Hq|(q' & Hq & Hq')].
  - pose proof (NextVarUint_short _ src pre q Hq Hp) as H.
    unfold source_NextVarBytes. destruct (NextVarUint src) as [[n eof] s1].
    cbn in H. subst eof. reflexivity.
  - subst q.
    destruct (NextVarUint_positioned (Z.of_nat (List.length d)) src pre q'
                ltac:(lia) Hp) as (s1 & E1 & Hp1).
    apply strictPrefix_length in Hq'.
    pose proof (NextBytes_short (Z.of_nat (List.length d)) s1 _ q' Hp1
                  ltac:(lia) ltac:(lia)) as H.
    unfold source_NextVarBytes. rewrite E1. exact H.
Qed.

Lemma nextVarBytesLoop_short (l : list (list byte)) :
  forall (items : list (list byte)) (src : ZeroCopySource) (pre q : list byte),
  Z.of_nat (List.length (concat (map varBytesBytes l))) < 2 ^ 64 ->
  strictPrefix q (concat (map varBytesBytes l)) ->
  positioned src pre q ->
  fst (nextVarBytesLoop (List.length l) items src) = None.
Proof.
  induction l as [|d l IH]; intros items src pre q Hl Hq Hp.
  - apply strictPrefix_length in Hq. cbn in Hq. lia.
  - cbn [map concat] in Hl, Hq. rewrite length_app in Hl.
    assert (Hd : Z.of_nat (List.length d) < 2 ^ 64).
    { unfold varBytesBytes in Hl. rewrite length_app in Hl. lia. }
    cbn [List.length nextVarBytesLoop NextVarBytes sourceReader].
    apply strictPrefix_app in Hq. destruct Hq as [Hq|(q' & Hq & Hq')].
    + pose proof (NextVarBytes_short d src pre q Hd Hq Hp) as H.
      destruct (source_NextVarBytes src) as [[item eof] s1]. cbn in H. subst eof.
      reflexivity.
    + subst q. destruct (NextVarBytes_positioned d src pre q' Hp) as (s1 & E1 & Hp1).
      rewrite E1. exact (IH _ s1 _ q' ltac:(lia) Hq' Hp1).
Qed.

(** Where the four reads of a list-carrying struct stop on a source cut
    short. *)
Lemma list_read_short (chainID : Z) (addr : address) (l : list (list byte))
    (q : list byte) :
  0 <= chainID < 2 ^ 64 ->
  Z.of_nat (List.length addr) = AddressLength ->
  Z.of_nat (List.length (le_encode 8 chainID ++ addr
                         ++ le_encode 8 (Z.of_nat (List.length l))
                         ++ concat (map varBytesBytes l))) < 2 ^ 64 ->
  strictPrefix q (le_encode 8 chainID ++ addr
                  ++ le_encode 8 (Z.of_nat (List.length l))
                  ++ concat (map varBytesBytes l)) ->
  snd (fst (source_NextUint64 (NewZeroCopySource q))) = true
  \/ exists s1,
      source_NextUint64 (NewZeroCopySource q) = (chainID, false, s1)
      /\ (snd (fst (source_NextAddress s1)) = true
          \/ exists s2,
              source_NextAddress s1 = (addr, false, s2)
              /\ (snd (fst (source_NextUint64 s2)) = true
                  \/ exists s3,
                      source_NextUint64 s2 = (Z.of_nat (List.length l), false, s3)
                      /\ fst (nextVarBytesLoop (Z.to_nat (Z.of_nat (List.length l))) [] s3)
                         = None)).
Proof.
  intros Hc Ha Hl Hq.
  assert (Hlq : Z.of_nat (List.length q) < 2 ^ 64).
  { apply strictPrefix_length in Hq. lia. }
  pose proof (positioned_new q Hlq) as Hp.
  rewrite !length_app, !le_encode_length in Hl.
  assert (Hn : 0 <= Z.of_nat (List.length l) < 2 ^ 64).
  { pose proof (items_le_bytes l). lia. }
  apply strictPrefix_app in Hq. destruct Hq as [Hq|(q1 & Hq & Hq1)].
  { left. apply strictPrefix_length in Hq. rewrite le_encode_length in Hq.
    apply (NextUint_short 8 _ [] q Hp); lia. }
  right. subst q.
  destruct (NextUint64_positioned chainID _ [] q1 Hc Hp) as (s1 & E1 & Hp1).
  exists s1. split; [exact E1|].
  apply strictPrefix_app in Hq1. destruct Hq1 as [Hq1|(q2 & Hq1 & Hq2)].
  { left. apply strictPrefix_length in Hq1. unfold AddressLength in Ha.
    pose proof (NextBytes_short ADDR_LEN s1 _ q1 Hp1 ltac:(unfold ADDR_LEN; lia)
                  ltac:(unfold ADDR_LEN; lia)) as H.
    unfold source_NextAddress. destruct (NextBytes ADDR_LEN s1) as [[b eof] s2].
    cbn in H. subst eof. reflexivity. }
  right. subst q1.
  destruct (NextAddress_positioned addr s1 _ q2 Ha Hp1) as (s2 & E2 & Hp2).
  exists s2. split; [exact E2|].
  apply strictPrefix_app in Hq2. destruct Hq2 as [Hq2|(q3 & Hq2 & Hq3)].
  { left. apply strictPrefix_length in Hq2. rewrite le_encode_length in Hq2.
    apply (NextUint_short 8 s2 _ q2 Hp2); lia. }
  right. subst q2.
  destruct (NextUint64_positioned _ s2 _ q3 Hn Hp2) as (s3 & E3 & Hp3).
  exists s3. split; [exact E3|].
  rewrite Nat2Z.id.
  exact (nextVarBytesLoop_short l [] s3 _ q3 ltac:(lia) Hq3 Hp3).
Qed.

(** X14. A source that holds the bytes of a value with one byte or more
    cut off the end never deserializes: each [Deserialization] returns an
    error on every strict prefix of what [Serialization] wrote. *)
Theorem Deserialization_rejects_truncated (q : list byte) :
  (forall p this : SyncGenesisHeaderParam.t,
      wellTypedGenesis p ->
      Z.of_nat (List.length (genesisBytes p)) < 2 ^ 64 ->
      strictPrefix q (genesisBytes p) ->
      exists e,
        errOf (SyncGenesisHeaderParam.Deserialization this (NewZeroCopySource q)) = Some e)
  /\ (forall p this : SyncBlockHeaderParam.t,
      wellTypedHeaders p ->
      Z.of_nat (List.length (headersBytes p)) < 2 ^ 64 ->
      strictPrefix q (headersBytes p) ->
      exists e,
        errOf (SyncBlockHeaderParam.Deserialization this (NewZeroCopySource q)) = Some e)
  /\ (forall p this : SyncCrossChainMsgParam.t,
      wellTypedMsgs p ->
      Z.of_nat (List.length (msgsBytes p)) < 2 ^ 64 ->
      strictPrefix q (msgsBytes p) ->
      exists e,
        errOf (SyncCrossChainMsgParam.Deserialization this (NewZeroCopySource q)) = Some e).
Proof.
  split; [|split]; intros p this Hw Hl Hq.
  - rewrite genesisBytes_eq in Hl, Hq.
    assert (Hlq : Z.of_nat (List.length q) < 2 ^ 64).
    { pose proof (strictPrefix_length _ _ Hq). lia. }
    pose proof (positioned_new q Hlq) as Hp.
    rewrite length_app in Hl.
    assert (Hd : Z.of_nat (List.length (SyncGenesisHeaderParam.GenesisHeader p)) < 2 ^ 64).
    { unfold varBytesBytes in Hl. rewrite length_app in Hl. lia. }
    unfold errOf, SyncGenesisHeaderParam.Deserialization.
    cbn [NextUint64 NextVarBytes sourceReader].
    apply strictPrefix_app in Hq. destruct Hq as [Hq|(q1 & Hq & Hq1)].
    + apply strictPrefix_length in Hq. rewrite le_encode_length in Hq.
      pose proof (NextUint_short 8 _ [] q Hp ltac:(lia) ltac:(lia)) as H.
      change (NextUint 8) with source_NextUint64 in H.
      destruct (source_NextUint64 (NewZeroCopySource q)) as [[v eof] s1].
      cbn in H. subst eof. eexists. reflexivity.
    + subst q.
      destruct (NextUint64_positioned _ _ [] q1 Hw Hp) as (s1 & E1 & Hp1).
      rewrite E1.
      pose proof (NextVarBytes_short _ s1 _ q1 Hd Hq1 Hp1) as H.
      destruct (source_NextVarBytes s1) as [[g eof] s2]. cbn in H. subst eof.
      eexists. reflexivity.
  - destruct Hw as [Hc Ha]. rewrite headersBytes_eq in Hl, Hq.
    unfold errOf, SyncBlockHeaderParam.Deserialization.
    cbn [NextUint64 NextAddress sourceReader].
    destruct (list_read_short _ _ _ q Hc Ha Hl Hq)
      as [H|(s1 & E1 & [H|(s2 & E2 & [H|(s3 & E3 & H)])])].
    + destruct (source_NextUint64 (NewZeroCopySource q)) as [[v eof] s1].
      cbn in H. subst eof. eexists. reflexivity.
    + rewrite E1. destruct (source_NextAddress s1) as [[a eof] s2].
      cbn in H. subst eof. eexists. reflexivity.
    + rewrite E1, E2. destruct (source_NextUint64 s2) as [[v eof] s3].
      cbn in H. subst eof. eexists. reflexivity.
    + rewrite E1, E2, E3.
      destruct (nextVarBytesLoop _ [] s3) as [[hs|] s4]; [discriminate H|].
      eexists. reflexivity.
  - destruct Hw as [Hc Ha]. rewrite msgsBytes_eq in Hl, Hq.
    unfold errOf, SyncCrossChainMsgParam.Deserialization.
    cbn [NextUint64 NextAddress sourceReader].
    destruct (list_read_short _ _ _ q Hc Ha Hl Hq)
      as [H|(s1 & E1 & [H|(s2 & E2 & [H|(s3 & E3 & H)])])].
    + destruct (source_NextUint64 (NewZeroCopySource q)) as [[v eof] s1].
      cbn in H. subst eof. eexists. reflexivity.
    + rewrite E1. destruct (source_NextAddress s1) as [[a eof] s2].
      cbn in H. subst eof. eexists. reflexivity.
    + rewrite E1, E2. destruct (source_NextUint64 s2) as [[v eof] s3].
      cbn in H. subst eof. eexists. reflexivity.
    + rewrite E1, E2, E3.
      destruct (nextVarBytesLoop _ [] s3) as [[hs|] s4]; [discriminate H|].
      eexists. reflexivity.
Qed.

(** *** A source never reads past its end *)

Lemma NextBytes_within (n : Z) (src : ZeroCopySource) (d : list byte) (src' : ZeroCopySource) :
  NextBytes n src = (d, false, src') ->
  within src ->
  within src' /\ off src <= off src' /\ s src' = s src.
Proof.
  unfold NextBytes, SafeAdd, within. intros E [H0 H1].
  destruct ((off src + n) mod 2 ^ 64 <? off src) eqn:Ov; [discriminate E|].
  destruct (Z.of_nat (List.length (s src)) <? (off src + n) mod 2 ^ 64) eqn:Past;
    [discriminate E|].
  cbn [orb] in E. injection E as _ E. subst src'. cbn [s off].
  apply Z.ltb_ge in Ov, Past. repeat split; lia.
Qed.

Lemma NextByte_within (src : ZeroCopySource) (b : byte) (src' : ZeroCopySource) :
  NextByte src = (b, false, src') ->
  within src ->
  within src' /\ off src + 1 <= off src' /\ s src' = s src.
Proof.
  unfold NextByte, within. intros E [H0 H1].
  destruct (Z.of_nat (List.length (s src)) <=? off src) eqn:L; [discriminate E|].
  injection E as _ E. subst src'. cbn [s off]. apply Z.leb_gt in L. repeat split; lia.
Qed.

Lemma NextUint_within (n : Z) (src : ZeroCopySource) (v : Z) (src' : ZeroCopySource) :
  NextUint n src = (v, false, src') ->
  within src ->
  within src' /\ off src <= off src' /\ s src' = s src.
Proof.
  unfold NextUint. intros E H.
  destruct (NextBytes n src) as [[b [|]] s1] eqn:B; [discriminate E|].
  injection E as _ E. subst s1. exact (NextBytes_within n src b src' B H).
Qed.

Lemma NextVarUint_within (src : ZeroCopySource) (v : Z) (src' : ZeroCopySource) :
  NextVarUint src = (v, false, src') ->
  within src ->
  within src' /\ off src + 1 <= off src' /\ s src' = s src.
Proof.
  unfold NextVarUint. intros E H.
  destruct (NextByte src) as [[fb [|]] s1] eqn:B; [discriminate E|].
  destruct (NextByte_within src fb s1 B H) as (H1 & O1 & S1).
  assert (K : forall n, NextUint n s1 = (v, false, src') ->
                        within src' /\ off src + 1 <= off src' /\ s src' = s src).
  { intros n En. destruct (NextUint_within n s1 v src' En H1) as (H2 & O2 & S2).
    repeat split; [apply H2 | apply H2 | lia | congruence]. }
  destruct (Z_of_byte fb =? 253); [exact (K _ E)|].
  destruct (Z_of_byte fb =? 254); [exact (K _ E)|].
  destruct (Z_of_byte fb =? 255); [exact (K _ E)|].
  injection E as _ E. subst s1. auto.
Qed.

Lemma NextVarBytes_within (src : ZeroCopySource) (d : list byte) (src' : ZeroCopySource) :
  source_NextVarBytes src = (d, false, src') ->
  within src ->
  within src' /\ off src + 1 <= off src' /\ s src' = s src.
Proof.
  unfold source_NextVarBytes. intros E H.
  destruct (NextVarUint src) as [[n [|]] s1] eqn:B; [discriminate E|].
  destruct (NextVarUint_within src n s1 B H) as (H1 & O1 & S1).
  destruct (NextBytes_within n s1 d src' E H1) as (H2 & O2 & S2).
  repeat split; [apply H2 | apply H2 | lia | congruence].
Qed.

Lemma nextVarBytesLoop_within (k : nat) :
  forall (items l : list (list byte)) (src src' : ZeroCopySource),
  nextVarBytesLoop k items src = (Some l, src') ->
  within src ->
  List.length l = (List.length items + k)%nat
  /\ off src + Z.of_nat k <= off src'
  /\ within src' /\ s src' = s src.
Proof.
  induction k as [|k IH]; intros items l src src' E H.
  - cbn in E. injection E as E1 E2. subst. repeat split; try apply H; lia.
  - cbn [nextVarBytesLoop NextVarBytes sourceReader] in E.
    destruct (source_NextVarBytes src) as [[item [|]] s1] eqn:B; [discriminate E|].
    destruct (NextVarBytes_within src item s1 B H) as (H1 & O1 & S1).
    destruct (IH _ _ _ _ E H1) as (L & O2 & H2 & S2).
    rewrite length_app in L. cbn in L.
    repeat split; [lia | lia | apply H2 | apply H2 | congruence].
Qed.

(** X15. The count field cannot make [Deserialization] return more byte
    strings than the source has bytes: when it returns nil, the receiver
    holds at most as many headers (or cross-chain messages) as the length
    of the bytes it read from; a count beyond that always ends in an
    error. *)
Theorem Deserialization_items_bounded_by_source (b : list byte) :
  (forall this : SyncBlockHeaderParam.t,
      errOf (SyncBlockHeaderParam.Deserialization this (NewZeroCopySource b)) = None ->
      (List.length (SyncBlockHeaderParam.Headers
                      (receiverOf (SyncBlockHeaderParam.Deserialization this
                                     (NewZeroCopySource b))))
       <= List.length b)%nat)
  /\ (forall this : SyncCrossChainMsgParam.t,
      errOf (SyncCrossChainMsgParam.Deserialization this (NewZeroCopySource b)) = None ->
      (List.length (SyncCrossChainMsgParam.CrossChainMsgs
                      (receiverOf (SyncCrossChainMsgParam.Deserialization this
                                     (NewZeroCopySource b))))
       <= List.length b)%nat).
Proof.
  assert (W0 : within (NewZeroCopySource b)).
  { unfold within, NewZeroCopySource. cbn. lia. }
  assert (K : forall s3 n l s4,
             within s3 -> s s3 = b ->
             nextVarBytesLoop (Z.to_nat n) [] s3 = (Some l, s4) ->
             (List.length l <= List.length b)%nat).
  { intros s3 n l s4 W3 S3 E.
    destruct (nextVarBytesLoop_within _ _ _ _ _ E W3) as (L & O & W4 & S4).
    cbn in L. unfold within in W3, W4. rewrite S4, S3 in W4. lia. }
  unfold errOf, receiverOf.
  split; intros this.
  - unfold SyncBlockHeaderParam.Deserialization. cbn [NextUint64 NextAddress sourceReader].
    destruct (source_NextUint64 (NewZeroCopySource b)) as [[c [|]] s1] eqn:E1;
      [discriminate|].
    destruct (NextUint_within _ _ _ _ E1 W0) as (W1 & _ & S1).
    unfold source_NextAddress.
    destruct (NextBytes ADDR_LEN s1) as [[a [|]] s2] eqn:E2; [discriminate|].
    destruct (NextBytes_within _ _ _ _ E2 W1) as (W2 & _ & S2).
    destruct (source_NextUint64 s2) as [[n [|]] s3] eqn:E3; [discriminate|].
    destruct (NextUint_within _ _ _ _ E3 W2) as (W3 & _ & S3).
    destruct (nextVarBytesLoop (Z.to_nat n) [] s3) as [[l|] s4] eqn:E4; [|discriminate].
    intros _. cbn. apply (K s3 n l s4 W3); [|exact E4].
    rewrite S3, S2, S1. reflexivity.
  - unfold SyncCrossChainMsgParam.Deserialization. cbn [NextUint64 NextAddress sourceReader].
    destruct (source_NextUint64 (NewZeroCopySource b)) as [[c [|]] s1] eqn:E1;
      [discriminate|].
    destruct (NextUint_within _ _ _ _ E1 W0) as (W1 & _ & S1).
    unfold source_NextAddress.
    destruct (NextBytes ADDR_LEN s1) as [[a [|]] s2] eqn:E2; [discriminate|].
    destruct (NextBytes_within _ _ _ _ E2 W1) as (W2 & _ & S2).
    destruct (source_NextUint64 s2) as [[n [|]] s3] eqn:E3; [discriminate|].
    destruct (NextUint_within _ _ _ _ E3 W2) as (W3 & _ & S3).
    destruct (nextVarBytesLoop (Z.to_nat n) [] s3) as [[l|] s4] eqn:E4; [|discriminate].
    intros _. cbn. apply (K s3 n l s4 W3); [|exact E4].
    rewrite S3, S2, S1. reflexivity.
Qed.

End CodecFacts.

(* ================================================================== *)
(** * The errors of package core *)
(* ================================================================== *)

(** X16. No two errors of package core carry the same text: the text of a
    package error tells which error it is. *)
Theorem package_error_texts_distinct (e1 e2 : error) :
  isPackageError e1 = true ->
  isPackageError e2 = true ->
  Error e1 = Error e2 ->
  e1 = e2.
Proof.
  intros H1 H2 E.
  destruct e1; try discriminate H1; destruct e2; try discriminate H2;
    first [reflexivity | discriminate E].
Qed.

(* ================================================================== *)
(** * The further properties at concrete inputs *)
(* ================================================================== *)

Section MoreConcrete.

Import polycomm.
Import Demo.

Local Existing Instance methods.

(** The future message of round 5: its store follows its handler. *)
Lemma handleEvents_stores_follow_handlers_witness :
  exists h (t0 : list (Call Proposal Validator Subscription)),
    [call_handler HNewView newView5 validator1] = t0 ++ [call_handler h newView5 validator1].
Proof.
  exact (handleEvents_stores_follow_handlers
           [fromEvents (Some (MessageEvent payloadNewView5))] core3
           [call_handler HNewView newView5 validator1] newView5 validator1 []
           eq_refl).
Defined.

(** The Prepare message of round 3 is handled, and [handleMsg] returns
    nil. *)
Lemma handleMsg_nil_means_handled_witness :
  exists msg src h,
    FromPayload_impl payloadPrepare3 core3 = inl msg
    /\ snd (GetByAddress (valSet core3) (Address msg)) = Some src
    /\ handlerFor (Code msg) = Some h
    /\ fst (handler_impl h msg src core3) = None
    /\ handleMsg payloadPrepare3 core3 =
       (None, snd (handler_impl h msg src core3), [call_handler h msg src]).
Proof.
  exact (handleMsg_nil_means_handled payloadPrepare3 core3 eq_refl).
Defined.

(** The store of the future message of round 5 is of the message its
    payload decodes to. *)
Lemma handleMsg_calls_are_for_the_decoded_message_witness :
  exists msg src h,
    FromPayload_impl payloadNewView5 core3 = inl msg
    /\ snd (GetByAddress (valSet core3) (Address msg)) = Some src
    /\ handlerFor (Code msg) = Some h
    /\ Code msg = MsgType h
    /\ ((call_storeBacklog newView5 validator1 : Call Proposal Validator Subscription)
          = call_handler h msg src
        \/ (call_storeBacklog newView5 validator1 : Call Proposal Validator Subscription)
          = call_storeBacklog msg src).
Proof.
  exact (handleMsg_calls_are_for_the_decoded_message payloadNewView5 core3
           (call_storeBacklog newView5 validator1)
           (or_intror (or_introl eq_refl)) (or_intror eq_refl)).
Defined.

(** Under the methods of the concrete core, whose [stopTimer] changes the
    timer only. *)
Lemma Stop_after_subscribeEvents_witness :
  exists s1 s2 s3,
    calls (subscribeEvents core3) =
      [call_Subscribe [TRequestEvent; TMessageEvent; TbacklogEvent] s1;
       call_Subscribe [TtimeoutEvent] s2;
       call_Subscribe [TFinalCommittedEvent] s3]
    /\ calls (Stop (final (subscribeEvents core3))) =
      [call_stopTimer; call_Unsubscribe s1; call_Unsubscribe s2; call_Unsubscribe s3]
    /\ result (Stop (final (subscribeEvents core3))) = None.
Proof.
  exact (Stop_after_subscribeEvents core3
           (fun c0 => conj eq_refl (conj eq_refl eq_refl))).
Defined.

(** A genesis value and a headers value written one after the other into
    one sink are read back one after the other. *)
Lemma Deserialization_reads_one_value_witness :
  SyncGenesisHeaderParam.Deserialization genesis0 (NewZeroCopySource genesisThenHeaders) =
    (None, genesis7, {| s := genesisThenHeaders; off := 12 |})
  /\ SyncBlockHeaderParam.Deserialization headers0 {| s := genesisThenHeaders; off := 12 |} =
    (None, headers7, {| s := genesisThenHeaders; off := 54 |}).
Proof.
  assert (P1 : positioned (NewZeroCopySource genesisThenHeaders) []
                 (genesisBytes genesis7 ++ headersBytes headers7))
    by (unfold positioned; repeat split; vm_compute; reflexivity).
  assert (P2 : positioned {| s := genesisThenHeaders; off := 12 |}
                 (genesisBytes genesis7) (headersBytes headers7 ++ []))
    by (unfold positioned; repeat split; vm_compute; reflexivity).
  assert (W1 : wellTypedGenesis genesis7) by (unfold wellTypedGenesis; cbn; lia).
  assert (W2 : wellTypedHeaders headers7)
    by (unfold wellTypedHeaders; cbn; split; [lia | reflexivity]).
  pose proof (proj1 (proj1 (Deserialization_reads_one_value _ _ _) genesis7 genesis0 W1 P1))
    as E1.
  pose proof (proj1 (proj1 (proj2 (Deserialization_reads_one_value _ _ _))
                       headers7 headers0 W2 P2)) as E2.
  split; [rewrite E1 | rewrite E2]; vm_compute; reflexivity.
Defined.

(** A value equal to [genesis7], written with its chain id as a sum. *)
Lemma Serialization_injective_witness :
  genesis7 = {| SyncGenesisHeaderParam.ChainID := 3 + 4;
                SyncGenesisHeaderParam.GenesisHeader := [x0a; x0b] ++ [x0c] |}.
Proof.
  apply (proj1 Serialization_injective).
  - unfold wellTypedGenesis. cbn. lia.
  - unfold wellTypedGenesis. cbn. lia.
  - vm_compute. reflexivity.
  - vm_compute. reflexivity.
Defined.

(** The bytes of [headers7] without the last one. *)
Lemma Deserialization_rejects_truncated_witness :
  exists e,
    errOf (SyncBlockHeaderParam.Deserialization headers0
             (NewZeroCopySource headers7Truncated)) = Some e.
Proof.
  apply (proj1 (proj2 (Deserialization_rejects_truncated headers7Truncated)) headers7).
  - unfold wellTypedHeaders. cbn. split; [lia | reflexivity].
  - vm_compute. reflexivity.
  - exists [x0c]. split; [discriminate | vm_compute; reflexivity].
Defined.

(** The three headers of [headers7], read from their 42 bytes. *)
Lemma Deserialization_items_bounded_by_source_witness :
  (List.length (SyncBlockHeaderParam.Headers
                  (receiverOf (SyncBlockHeaderParam.Deserialization headers0
                                 (NewZeroCopySource (headersBytes headers7)))))
   <= List.length (headersBytes headers7))%nat.
Proof.
  apply (proj1 (Deserialization_items_bounded_by_source (headersBytes headers7))).
  vm_compute. reflexivity.
Defined.

(** Two errors of the package with the same text are the same error. *)
Lemma package_error_texts_distinct_witness : errOldVote = errOldVote.
Proof.
  exact (package_error_texts_distinct errOldVote errOldVote eq_refl eq_refl eq_refl).
Defined.

End MoreConcrete.
